(** * Conversation templates: prompt assembly, cloning and the template catalog

    A shallow embedding of the [conversation] module (class [SeparatorStyle],
    dataclass [Conversation], the two registered templates and
    [get_conv_template]) together with the properties of prompt assembly,
    of [copy] and of catalog lookup.

    Python strings are sequences of Unicode code points; they are modelled as
    lists of code points so that [str.rstrip] and [str.endswith] keep their
    meaning on every string. *)

From Stdlib Require Import String Ascii.
From stdpp Require Import base numbers option list gmap.

Local Open Scope Z_scope.
Local Open Scope nat_scope.
Local Open Scope list_scope.

(** ** Python strings *)

Definition pystr := list N.

(** A string literal of the source, as its code points (the literals of the
    module are ASCII). *)
Definition str (s : string) : pystr :=
  map N_of_ascii (list_ascii_of_string s).
Arguments str : simpl never.

(** The character written "\n" in the source. *)
Definition nl : pystr := [10%N].

(** Truth value of a string in a condition: non-empty. *)
Definition truthy (s : pystr) : bool :=
  match s with [] => false | _ :: _ => true end.

(** [str.isspace] on one code point, as [str.rstrip()] uses it: the code
    points whose bidirectional class is WS, B or S or whose category is Zs. *)
Definition isspace (c : N) : bool :=
  ((9 <=? c) && (c <=? 13) || (28 <=? c) && (c <=? 32)
   || (c =? 133) || (c =? 160) || (c =? 5760)
   || (8192 <=? c) && (c <=? 8202)
   || (c =? 8232) || (c =? 8233) || (c =? 8239) || (c =? 8287)
   || (c =? 12288))%N.

(** [s.rstrip()]: drop the longest all-whitespace suffix. *)
Fixpoint rstrip (s : pystr) : pystr :=
  match s with
  | [] => []
  | c :: s' =>
      match rstrip s' with
      | [] => if isspace c then [] else [c]
      | r => c :: r
      end
  end.

(** [s.endswith(suffix)]: the last [len(suffix)] characters of [s] are
    [suffix]. *)
Definition endswith (s suffix : pystr) : bool :=
  (length suffix <=? length s)
  && bool_decide (drop (length s - length suffix) s = suffix).

(** ** The style enumeration *)

Inductive SeparatorStyle : Set :=
  | SINGLE | TWO | MPT | PLAIN | LLAMA_2
  | VICUNA | CHATML | CHATGLM | DOLLY | RWKV | PHOENIX | ROBIN | FALCON_CHAT.

#[global] Instance SeparatorStyle_eq_dec : EqDecision SeparatorStyle.
Proof. solve_decision. Defined.

(** ** Exceptions and results *)

Inductive exn : Type :=
  | ValueError (msg : pystr)
  | IndexError
  | TypeError
  | AttributeError
  | Fault.   (* a reference that denotes no object of the expected class *)

Inductive res (A : Type) : Type :=
  | Ok (a : A)
  | Raise (e : exn).
Arguments Ok {A} a.
Arguments Raise {A} e.

(** ** The state of a conversation, as prompt assembly reads it

    One turn is the inner list [[role, message]]; [message] is a string or
    [None]. *)

Definition turn : Type := pystr * option pystr.

(** Field values that assembly never reads ([roles], [stop_str],
    [stop_token_ids]): [None], a string, an integer, a tuple or a list of
    such items. *)
Inductive atom : Type :=
  | ANone
  | AStr (s : pystr)
  | AInt (z : Z).

Inductive rval : Type :=
  | RAtom (a : atom)
  | RTuple (items : list atom)
  | RList (items : list atom).

Record Conversation : Type := mkConversation {
  system : pystr;
  roles : rval;
  messages : list turn;
  offset : Z;
  sep_style : SeparatorStyle;
  sep : pystr;
  sep2 : option pystr;
  stop_str : rval;
  stop_token_ids : rval
}.

(** ** Prompt assembly: [Conversation.get_prompt] *)

Definition missing_sep2_msg : pystr :=
  str "SeparatorStyle.TWO/VICUNA requires both sep (sep1) and sep2 to be defined.".

(** The loop of the TWO/VICUNA branch; [seps] is the list [[sep, sep2]],
    [i] the index [enumerate] gives to the head of [msgs]. *)
Fixpoint two_loop (seps : list pystr) (ret : pystr) (i : nat)
    (msgs : list turn) : pystr :=
  match msgs with
  | [] => ret
  | (role, message) :: rest =>
      match message with
      | Some ((_ :: _) as m) =>
          let ret := ret ++ ((role ++ str ": ") ++ m) in
          let ret := ret ++ nth (i mod 2) seps [] in
          two_loop seps ret (S i) rest
      | _ =>
          two_loop seps (ret ++ (role ++ str ":")) (S i) rest
      end
  end.

(** The loop of the other styles; [n] is [len(self.messages)]. *)
Fixpoint default_loop (style : SeparatorStyle) (sep : pystr) (n : nat)
    (ret : pystr) (i : nat) (msgs : list turn) : pystr :=
  match msgs with
  | [] => ret
  | (role, message) :: rest =>
      match message with
      | Some ((_ :: _) as m) =>
          if decide (style = PLAIN) then
            default_loop style sep n (ret ++ ((role ++ m) ++ sep)) (S i) rest
          else if decide (style = CHATML) then
            default_loop style sep n
              (ret ++ ((((role ++ nl) ++ m) ++ sep)
                       ++ (if (Z.of_nat i <? Z.of_nat n - 1)%Z then nl else [])))
              (S i) rest
          else
            default_loop style sep n (ret ++ ((role ++ m) ++ sep)) (S i) rest
      | _ =>
          if decide (style = PLAIN) then
            default_loop style sep n (ret ++ (role ++ sep)) (S i) rest
          else if decide (style = CHATML) then
            default_loop style sep n (ret ++ (role ++ nl)) (S i) rest
          else
            default_loop style sep n (ret ++ role) (S i) rest
      end
  end.

Definition get_prompt (self : Conversation) : res pystr :=
  if decide (sep_style self = TWO \/ sep_style self = VICUNA) then
    match sep2 self with
    | None => Raise (ValueError missing_sep2_msg)
    | Some s2 =>
        let seps := [sep self; s2] in
        let ret := if truthy (system self)
                   then system self ++ nth 0 seps [] else [] in
        Ok (two_loop seps ret 0 (messages self))
    end
  else
    let ret := [] in
    let ret :=
      if truthy (system self) then
        let ret := ret ++ system self in
        if decide (sep_style self <> CHATML) then ret ++ sep self else ret
      else ret in
    let ret := default_loop (sep_style self) (sep self)
                 (length (messages self)) ret 0 (messages self) in
    let ret :=
      if decide (sep_style self = PLAIN) then
        if truthy (sep self) then
          let ret := rstrip ret in
          if negb (endswith ret (sep self)) then ret ++ sep self else ret
        else ret
      else ret in
    Ok ret.

(** ** The object store

    [Conversation] objects, the [messages] list and its inner lists are
    mutable and shared by reference, so they live in a store.  A location is
    an index into the store; objects are never freed.  Strings, integers,
    [None], enum members and tuples of such are immutable and are kept as
    values. *)

Abbreviation loc := nat.

(** A field holding an immutable value, or a reference to a list of atoms. *)
Inductive fval : Type :=
  | FAtom (a : atom)
  | FTuple (items : list atom)
  | FRef (l : loc).

Record ConvObj : Type := mkConvObj {
  o_system : pystr;
  o_roles : fval;
  o_messages : loc;
  o_offset : Z;
  o_sep_style : SeparatorStyle;
  o_sep : pystr;
  o_sep2 : option pystr;
  o_stop_str : fval;
  o_stop_token_ids : fval
}.

Inductive obj : Type :=
  | OConv (c : ConvObj)                       (* a Conversation instance *)
  | OMsgs (items : list loc)                  (* the list of turns *)
  | OTurn (role : pystr) (message : option pystr)  (* [role, message] *)
  | OList (items : list atom).                (* a list of atoms *)

Abbreviation heap := (list obj).

(** *** A state and exception monad over the store *)

Definition M (A : Type) : Type := heap -> res A * heap.

Definition ret {A} (a : A) : M A := fun h => (Ok a, h).
Definition raise {A} (e : exn) : M A := fun h => (Raise e, h).
Definition bind {A B} (m : M A) (f : A -> M B) : M B :=
  fun h => match m h with
           | (Ok a, h') => f a h'
           | (Raise e, h') => (Raise e, h')
           end.

Notation "x <- m ;; k" := (bind m (fun x => k))
  (at level 100, m at next level, right associativity).
Notation "m1 ;;; m2" := (bind m1 (fun _ => m2))
  (at level 100, right associativity).

Definition lift {A} (r : res A) : M A := fun h => (r, h).

Definition alloc (o : obj) : M loc := fun h => (Ok (length h), h ++ [o]).

Definition read (l : loc) : M obj :=
  fun h => match h !! l with
           | Some o => (Ok o, h)
           | None => (Raise Fault, h)
           end.

Definition write (l : loc) (o : obj) : M unit :=
  fun h => (Ok tt, <[l := o]> h).

Definition read_conv (l : loc) : M ConvObj :=
  o <- read l ;; match o with OConv c => ret c | _ => raise Fault end.
Definition read_msgs (l : loc) : M (list loc) :=
  o <- read l ;; match o with OMsgs ts => ret ts | _ => raise Fault end.
Definition read_turn (l : loc) : M turn :=
  o <- read l ;; match o with OTurn r m => ret (r, m) | _ => raise Fault end.
Definition read_list (l : loc) : M (list atom) :=
  o <- read l ;; match o with OList xs => ret xs | _ => raise Fault end.

(** *** The value of a conversation object: every field, with the lists it
    refers to read out of the store *)

Definition load_fval (v : fval) : M rval :=
  match v with
  | FAtom a => ret (RAtom a)
  | FTuple xs => ret (RTuple xs)
  | FRef l => xs <- read_list l ;; ret (RList xs)
  end.

Fixpoint load_turns (ts : list loc) : M (list turn) :=
  match ts with
  | [] => ret []
  | t :: ts' => x <- read_turn t ;; xs <- load_turns ts' ;; ret (x :: xs)
  end.

Definition load (self : loc) : M Conversation :=
  c <- read_conv self ;;
  r <- load_fval (o_roles c) ;;
  ts <- read_msgs (o_messages c) ;;
  msgs <- load_turns ts ;;
  s <- load_fval (o_stop_str c) ;;
  ids <- load_fval (o_stop_token_ids c) ;;
  ret (mkConversation (o_system c) r msgs (o_offset c) (o_sep_style c)
         (o_sep c) (o_sep2 c) s ids).

(** [self.get_prompt()] on an object of the store. *)
Definition get_prompt_at (self : loc) : M pystr :=
  c <- load self ;; lift (get_prompt c).

(** *** [Conversation.append_message] *)

Definition append_message (self : loc) (role : pystr)
    (message : option pystr) : M unit :=
  c <- read_conv self ;;
  ts <- read_msgs (o_messages c) ;;
  t <- alloc (OTurn role message) ;;
  write (o_messages c) (OMsgs (ts ++ [t])).

(** *** [Conversation.copy]: [copy.deepcopy(self)]

    [deepcopy] keeps a memo from the identity of each object it has copied
    to its copy, so that an object reached twice is copied once.  Atoms and
    tuples of atoms are returned as they are.  A turn cannot refer back to
    the list or the instance that holds it, so each container is entered in
    the store once its parts are copied; only the numbering of the new
    locations depends on that order. *)

Abbreviation memo_t := (gmap nat nat).

Definition deepcopy_turn (memo : memo_t) (t : loc) : M (loc * memo_t) :=
  match memo !! t with
  | Some t' => ret (t', memo)
  | None =>
      x <- read_turn t ;;
      t' <- alloc (OTurn (fst x) (snd x)) ;;
      ret (t', <[t := t']> memo)
  end.

Fixpoint deepcopy_turns (memo : memo_t) (ts : list loc)
    : M (list loc * memo_t) :=
  match ts with
  | [] => ret ([], memo)
  | t :: ts' =>
      r <- deepcopy_turn memo t ;;
      rs <- deepcopy_turns (snd r) ts' ;;
      ret (fst r :: fst rs, snd rs)
  end.

Definition deepcopy_msgs (memo : memo_t) (m : loc) : M (loc * memo_t) :=
  match memo !! m with
  | Some m' => ret (m', memo)
  | None =>
      ts <- read_msgs m ;;
      rs <- deepcopy_turns memo ts ;;
      m' <- alloc (OMsgs (fst rs)) ;;
      ret (m', <[m := m']> (snd rs))
  end.

Definition deepcopy_fval (memo : memo_t) (v : fval) : M (fval * memo_t) :=
  match v with
  | FRef l =>
      match memo !! l with
      | Some l' => ret (FRef l', memo)
      | None =>
          xs <- read_list l ;;
          l' <- alloc (OList xs) ;;
          ret (FRef l', <[l := l']> memo)
      end
  | _ => ret (v, memo)
  end.

(** The instance is rebuilt from the deep copy of its attributes, taken in
    declaration order. *)
Definition copy (self : loc) : M loc :=
  c <- read_conv self ;;
  r <- deepcopy_fval ∅ (o_roles c) ;;
  m <- deepcopy_msgs (snd r) (o_messages c) ;;
  s <- deepcopy_fval (snd m) (o_stop_str c) ;;
  ids <- deepcopy_fval (snd s) (o_stop_token_ids c) ;;
  alloc (OConv (mkConvObj (o_system c) (fst r) (fst m) (o_offset c)
                  (o_sep_style c) (o_sep c) (o_sep2 c) (fst s) (fst ids))).

(** *** Mutations a holder of a conversation can perform

    Besides [append_message], the attributes, the entries of [messages] and
    the items of the inner lists can be assigned.  An assigned list is a
    list display evaluated at the assignment, hence a new object.  Indices
    follow Python: a negative index counts from the end, an index out of
    range raises [IndexError]. *)

Definition py_index (len : nat) (i : Z) : option nat :=
  let j := if (i <? 0)%Z then (i + Z.of_nat len)%Z else i in
  if ((0 <=? j) && (j <? Z.of_nat len))%Z then Some (Z.to_nat j) else None.

Inductive scalar : Type :=
  | SSystem (s : pystr)
  | SOffset (z : Z)
  | SSepStyle (st : SeparatorStyle)
  | SSep (s : pystr)
  | SSep2 (s : option pystr).

Definition set_scalar (a : scalar) (c : ConvObj) : ConvObj :=
  match a with
  | SSystem s => mkConvObj s (o_roles c) (o_messages c) (o_offset c)
                   (o_sep_style c) (o_sep c) (o_sep2 c) (o_stop_str c)
                   (o_stop_token_ids c)
  | SOffset z => mkConvObj (o_system c) (o_roles c) (o_messages c) z
                   (o_sep_style c) (o_sep c) (o_sep2 c) (o_stop_str c)
                   (o_stop_token_ids c)
  | SSepStyle st => mkConvObj (o_system c) (o_roles c) (o_messages c)
                   (o_offset c) st (o_sep c) (o_sep2 c) (o_stop_str c)
                   (o_stop_token_ids c)
  | SSep s => mkConvObj (o_system c) (o_roles c) (o_messages c) (o_offset c)
                   (o_sep_style c) s (o_sep2 c) (o_stop_str c)
                   (o_stop_token_ids c)
  | SSep2 s => mkConvObj (o_system c) (o_roles c) (o_messages c) (o_offset c)
                   (o_sep_style c) (o_sep c) s (o_stop_str c)
                   (o_stop_token_ids c)
  end.

Inductive aux : Type := Roles | StopStr | StopTokenIds.

Definition get_aux (f : aux) (c : ConvObj) : fval :=
  match f with
  | Roles => o_roles c
  | StopStr => o_stop_str c
  | StopTokenIds => o_stop_token_ids c
  end.

Definition set_aux (f : aux) (v : fval) (c : ConvObj) : ConvObj :=
  match f with
  | Roles => mkConvObj (o_system c) v (o_messages c) (o_offset c)
               (o_sep_style c) (o_sep c) (o_sep2 c) (o_stop_str c)
               (o_stop_token_ids c)
  | StopStr => mkConvObj (o_system c) (o_roles c) (o_messages c) (o_offset c)
               (o_sep_style c) (o_sep c) (o_sep2 c) v (o_stop_token_ids c)
  | StopTokenIds => mkConvObj (o_system c) (o_roles c) (o_messages c)
               (o_offset c) (o_sep_style c) (o_sep c) (o_sep2 c)
               (o_stop_str c) v
  end.

Definition set_messages (m : loc) (c : ConvObj) : ConvObj :=
  mkConvObj (o_system c) (o_roles c) m (o_offset c) (o_sep_style c)
    (o_sep c) (o_sep2 c) (o_stop_str c) (o_stop_token_ids c).

Inductive mutation : Type :=
  | AppendMessage (role : pystr) (message : option pystr)
      (* x.append_message(role, message) *)
  | SetAttr (a : scalar)              (* x.system = s, x.sep2 = None, ... *)
  | SetAux (f : aux) (v : rval)       (* x.roles = v, x.stop_str = v, ... *)
  | AuxSetItem (f : aux) (i : Z) (a : atom)   (* x.roles[i] = a *)
  | AuxAppend (f : aux) (a : atom)            (* x.stop_str.append(a) *)
  | SetMessages (ts : list turn)      (* x.messages = [[r, m], ...] *)
  | SetEntry (i : Z) (t : turn)       (* x.messages[i] = [r, m] *)
  | DelEntry (i : Z)                  (* del x.messages[i] *)
  | SetTurnRole (i : Z) (r : pystr)   (* x.messages[i][0] = r *)
  | SetTurnMessage (i : Z) (m : option pystr).  (* x.messages[i][1] = m *)

Fixpoint alloc_turns (ts : list turn) : M (list loc) :=
  match ts with
  | [] => ret []
  | t :: ts' =>
      l <- alloc (OTurn (fst t) (snd t)) ;;
      ls <- alloc_turns ts' ;;
      ret (l :: ls)
  end.

(** [x.messages[i]] *)
Definition entry (x : loc) (i : Z) : M (loc * list loc * nat * loc) :=
  c <- read_conv x ;;
  ts <- read_msgs (o_messages c) ;;
  match py_index (length ts) i with
  | None => raise IndexError
  | Some j =>
      match ts !! j with
      | Some t => ret (o_messages c, ts, j, t)
      | None => raise IndexError
      end
  end.

Definition exec (mu : mutation) (x : loc) : M unit :=
  match mu with
  | AppendMessage role message => append_message x role message
  | SetAttr a =>
      c <- read_conv x ;; write x (OConv (set_scalar a c))
  | SetAux f v =>
      v' <- match v with
            | RAtom a => ret (FAtom a)
            | RTuple xs => ret (FTuple xs)
            | RList xs => l <- alloc (OList xs) ;; ret (FRef l)
            end ;;
      c <- read_conv x ;; write x (OConv (set_aux f v' c))
  | AuxSetItem f i a =>
      c <- read_conv x ;;
      match get_aux f c with
      | FRef l =>
          xs <- read_list l ;;
          match py_index (length xs) i with
          | Some j => write l (OList (<[j := a]> xs))
          | None => raise IndexError
          end
      | _ => raise TypeError
      end
  | AuxAppend f a =>
      c <- read_conv x ;;
      match get_aux f c with
      | FRef l => xs <- read_list l ;; write l (OList (xs ++ [a]))
      | _ => raise AttributeError
      end
  | SetMessages ts =>
      ls <- alloc_turns ts ;;
      m <- alloc (OMsgs ls) ;;
      c <- read_conv x ;; write x (OConv (set_messages m c))
  | SetEntry i t =>
      l <- alloc (OTurn (fst t) (snd t)) ;;
      e <- entry x i ;;
      let '(m, ts, j, _) := e in write m (OMsgs (<[j := l]> ts))
  | DelEntry i =>
      e <- entry x i ;;
      let '(m, ts, j, _) := e in write m (OMsgs (delete j ts))
  | SetTurnRole i r =>
      e <- entry x i ;;
      let '(_, _, _, t) := e in
      tu <- read_turn t ;; write t (OTurn r (snd tu))
  | SetTurnMessage i msg =>
      e <- entry x i ;;
      let '(_, _, _, t) := e in
      tu <- read_turn t ;; write t (OTurn (fst tu) msg)
  end.

(** A sequence of mutations through the reference [x]; one that raises is
    abandoned and the next one runs on the store it left. *)
Fixpoint run_muts (x : loc) (ms : list mutation) (h : heap) : heap :=
  match ms with
  | [] => h
  | mu :: ms' => run_muts x ms' (snd (exec mu x h))
  end.

(** ** The registered templates and the catalog *)

Definition conv_llava_plain_obj (messages : loc) : ConvObj :=
  mkConvObj [] (FTuple [AStr []; AStr []]) messages 0%Z PLAIN nl None
    (FAtom ANone) (FAtom ANone).

Definition v1_system : pystr :=
  str "A chat between a curious user and an artificial intelligence assistant. "
  ++ str "The assistant gives helpful, detailed, and polite answers to the user's questions.".

Definition conv_vicuna_v1_obj (messages : loc) : ConvObj :=
  mkConvObj v1_system (FTuple [AStr (str "USER"); AStr (str "ASSISTANT")])
    messages 0%Z TWO (str " ") (Some (str "</s>"))
    (FAtom (AStr (str "</s>"))) (FAtom ANone).

(** The store once the module is imported: each template's [messages=[]]
    is built before the instance that holds it. *)
Definition module_heap : heap :=
  [ OMsgs []; OConv (conv_llava_plain_obj 0);
    OMsgs []; OConv (conv_vicuna_v1_obj 2) ].

Definition conv_llava_plain : loc := 1.
Definition conv_vicuna_v1 : loc := 3.

(** The dict [conv_templates], in insertion order. *)
Definition conv_templates : list (pystr * loc) :=
  [ (str "plain", conv_llava_plain); (str "v1", conv_vicuna_v1) ].

Definition default_conversation : loc := conv_vicuna_v1.

Fixpoint dict_get {V} (d : list (pystr * V)) (k : pystr) : option V :=
  match d with
  | [] => None
  | (k', v) :: d' => if decide (k = k') then Some v else dict_get d' k
  end.

(** [repr] of a string; exact for strings of printable ASCII characters
    other than the quote and the backslash, which the catalog keys are. *)
Definition repr_str (s : pystr) : pystr := str "'" ++ s ++ str "'".

Fixpoint join (sepa : pystr) (xs : list pystr) : pystr :=
  match xs with
  | [] => []
  | [x] => x
  | x :: xs' => x ++ sepa ++ join sepa xs'
  end.

(** [str] of a list of strings. *)
Definition repr_list (xs : list pystr) : pystr :=
  str "[" ++ join (str ", ") (map repr_str xs) ++ str "]".

Definition unknown_template_msg (name : pystr) : pystr :=
  str "Unknown conversation template: " ++ name
  ++ str ". Available templates: " ++ repr_list (map fst conv_templates).

Definition get_conv_template (name : pystr) : M loc :=
  match dict_get conv_templates name with
  | None => raise (ValueError (unknown_template_msg name))
  | Some p => copy p
  end.

(** ** The scenarios of the module's tests, run on the store *)

Definition v1_scenario : M pystr :=
  c <- get_conv_template (str "v1") ;;
  append_message c (str "USER")
    (Some (str "<image>" ++ nl ++ str "Describe it.")) ;;;
  append_message c (str "ASSISTANT") (Some (str "It is red.")) ;;;
  append_message c (str "USER") (Some (str "What shape?")) ;;;
  append_message c (str "ASSISTANT") (Some (str "It is square.")) ;;;
  append_message c (str "ASSISTANT") None ;;;
  get_prompt_at c.

Definition plain_scenario : M pystr :=
  c <- get_conv_template (str "plain") ;;
  append_message c [] (Some (str "<image>")) ;;;
  append_message c [] (Some (str "A red block.")) ;;;
  get_prompt_at c.

Definition plain_empty_scenario : M pystr :=
  c <- get_conv_template (str "plain") ;; get_prompt_at c.

(** ** The assembly rules in the words of the specification

    The text of one turn depends on its index; a history is the
    concatenation of the texts of its turns. *)

Fixpoint turns_text (f : nat -> turn -> pystr) (i : nat) (ts : list turn)
    : pystr :=
  match ts with
  | [] => []
  | t :: ts' => f i t ++ turns_text f (S i) ts'
  end.

Definition preamble (system sepa : pystr) : pystr :=
  match system with [] => [] | _ => system ++ sepa end.

(** Two-separator style, as specified: any present content, the empty
    string included, is followed by the separator of its index. *)
Definition spec_two_turn (sepa sepb : pystr) (i : nat) (t : turn) : pystr :=
  match snd t with
  | Some content =>
      fst t ++ str ": " ++ content ++ (if Nat.even i then sepa else sepb)
  | None => fst t ++ str ":"
  end.

Definition spec_two_assemble (c : Conversation) (sepb : pystr) : pystr :=
  preamble (system c) (sep c)
  ++ turns_text (spec_two_turn (sep c) sepb) 0 (messages c).

(** The same rule with empty content read as absent content. *)
Definition two_turn (sepa sepb : pystr) (i : nat) (t : turn) : pystr :=
  match snd t with
  | Some ((_ :: _) as content) =>
      fst t ++ str ": " ++ content ++ (if Nat.even i then sepa else sepb)
  | _ => fst t ++ str ":"
  end.

Definition two_assemble (c : Conversation) (sepb : pystr) : pystr :=
  preamble (system c) (sep c)
  ++ turns_text (two_turn (sep c) sepb) 0 (messages c).

(** Default path, as specified; [n] is the number of turns. *)
Definition spec_default_turn (style : SeparatorStyle) (sepa : pystr)
    (n i : nat) (t : turn) : pystr :=
  match snd t with
  | Some content =>
      match style with
      | CHATML =>
          fst t ++ nl ++ content ++ sepa
          ++ (if decide (S i = n) then [] else nl)
      | _ => fst t ++ content ++ sepa
      end
  | None =>
      match style with
      | PLAIN => fst t ++ sepa
      | CHATML => fst t ++ nl
      | _ => fst t
      end
  end.

Definition default_preamble (c : Conversation) : pystr :=
  match system c with
  | [] => []
  | _ => match sep_style c with
         | CHATML => system c
         | _ => system c ++ sep c
         end
  end.

Definition spec_default_body (c : Conversation) : pystr :=
  default_preamble c
  ++ turns_text (spec_default_turn (sep_style c) (sep c)
                   (length (messages c))) 0 (messages c).

(** The same rule with empty content read as absent content. *)
Definition default_turn (style : SeparatorStyle) (sepa : pystr)
    (n i : nat) (t : turn) : pystr :=
  match snd t with
  | Some ((_ :: _) as content) =>
      spec_default_turn style sepa n i (fst t, Some content)
  | _ => spec_default_turn style sepa n i (fst t, None)
  end.

Definition default_body (c : Conversation) : pystr :=
  default_preamble c
  ++ turns_text (default_turn (sep_style c) (sep c)
                   (length (messages c))) 0 (messages c).

(** Post-processing as specified: trim trailing whitespace, then append the
    separator unless the trimmed string already ends with it. *)
Definition spec_plain_post (sepa ret : pystr) : pystr :=
  let r := rstrip ret in
  if endswith r sepa then r else r ++ sepa.

(** What the per-turn loop of the default path leaves in [ret]. *)
Definition loop_result (c : Conversation) : pystr :=
  default_loop (sep_style c) (sep c) (length (messages c))
    (default_preamble c) 0 (messages c).

(** The post-processing the default path applies to a style. *)
Definition final_cleanup (c : Conversation) (ret : pystr) : pystr :=
  match sep_style c with
  | PLAIN => match sep c with
             | [] => ret
             | _ => spec_plain_post (sep c) ret
             end
  | _ => ret
  end.

Definition with_messages (c : Conversation) (ms : list turn) : Conversation :=
  mkConversation (system c) (roles c) ms (offset c) (sep_style c) (sep c)
    (sep2 c) (stop_str c) (stop_token_ids c).

(** Empty content replaced by absent content. *)
Definition as_absent (t : turn) : turn :=
  match snd t with
  | Some [] => (fst t, None)
  | _ => t
  end.


(** ** Reasoning about the store

    The references an object holds. *)

Definition fval_refs (v : fval) : list loc :=
  match v with FRef l => [l] | _ => [] end.

Definition obj_refs (o : obj) : list loc :=
  match o with
  | OConv c =>
      o_messages c :: fval_refs (o_roles c) ++ fval_refs (o_stop_str c)
      ++ fval_refs (o_stop_token_ids c)
  | OMsgs ts => ts
  | OTurn _ _ => []
  | OList _ => []
  end.

(** Every reference held in the store denotes an object of the store. *)
Definition heap_wf (h : heap) : Prop :=
  Forall (fun o => Forall (fun r => r < length h) (obj_refs o)) h.

(** Triples for the store monad: from a store satisfying [P], a normal
    result [a] leaves a store satisfying [Q a], an exception one satisfying
    [E]. *)
Definition hoare {A} (P : heap -> Prop) (m : M A) (Q : A -> heap -> Prop)
    (E : heap -> Prop) : Prop :=
  forall h, P h ->
    match m h with
    | (Ok a, h') => Q a h'
    | (Raise _, h') => E h'
    end.

(** A region [F] of locations: [clean] objects hold no reference into it,
    a store is [closed] on it when its objects refer to the region only,
    two stores [agree] on it when they hold the same objects there. *)
Definition clean (F : loc -> Prop) (o : obj) : Prop :=
  Forall (fun r => ~ F r) (obj_refs o).

Definition closed (F : loc -> Prop) (h : heap) : Prop :=
  forall l o, F l -> h !! l = Some o -> Forall F (obj_refs o).

Definition agree (F : loc -> Prop) (h h' : heap) : Prop :=
  forall l, F l -> h' !! l = h !! l.

(** The region is allocated, unchanged with respect to [href], and not
    referred to from outside. *)
Definition separated (F : loc -> Prop) (href h : heap) : Prop :=
  (forall l, F l -> l < length h)
  /\ (forall l o, ~ F l -> h !! l = Some o -> clean F o)
  /\ agree F href h.

(** *** What [load] returns, in terms of the objects of the store *)

Definition fval_loads (h : heap) (v : fval) (r : rval) : Prop :=
  match v with
  | FAtom a => r = RAtom a
  | FTuple xs => r = RTuple xs
  | FRef l => exists xs, h !! l = Some (OList xs) /\ r = RList xs
  end.

Definition turn_loads (h : heap) (t : loc) (x : turn) : Prop :=
  h !! t = Some (OTurn (fst x) (snd x)).

Definition loads (h : heap) (a : loc) (v : Conversation) : Prop :=
  exists c ts,
    h !! a = Some (OConv c)
    /\ h !! o_messages c = Some (OMsgs ts)
    /\ fval_loads h (o_roles c) (roles v)
    /\ Forall2 (turn_loads h) ts (messages v)
    /\ fval_loads h (o_stop_str c) (stop_str v)
    /\ fval_loads h (o_stop_token_ids c) (stop_token_ids v)
    /\ system v = o_system c /\ offset v = o_offset c
    /\ sep_style v = o_sep_style c /\ sep v = o_sep c /\ sep2 v = o_sep2 c.

(** *** The invariant of [deepcopy]

    With respect to the store [h0] the copy started from: the store only
    grew, the new objects refer to new objects, and the memo sends old
    locations to new ones that hold a copy. *)

Definition copy_rel (memo : memo_t) (o o' : obj) : Prop :=
  match o with
  | OTurn r m => o' = OTurn r m
  | OList xs => o' = OList xs
  | OMsgs ts =>
      exists ts', o' = OMsgs ts'
                  /\ Forall2 (fun t t' => memo !! t = Some t') ts ts'
  | OConv _ => False
  end.

Definition copy_inv (h0 : heap) (memo : memo_t) (h : heap) : Prop :=
  (exists k, h = h0 ++ k)
  /\ (forall l o, length h0 <= l -> h !! l = Some o ->
        Forall (fun r => length h0 <= r < length h) (obj_refs o))
  /\ (forall l l', memo !! l = Some l' ->
        length h0 <= l' < length h
        /\ exists o o', h0 !! l = Some o /\ h !! l' = Some o'
                        /\ copy_rel memo o o').

Definition fval_rel (memo : memo_t) (v v' : fval) : Prop :=
  match v with
  | FRef l => exists l', v' = FRef l' /\ memo !! l = Some l'
  | _ => v' = v
  end.

Definition turn_typed (h : heap) (t : loc) : Prop :=
  exists r m, h !! t = Some (OTurn r m).

Definition list_typed (h : heap) (l : loc) : Prop :=
  exists xs, h !! l = Some (OList xs).

(** The object at [a] is a conversation whose references denote objects of
    the expected classes. *)
Definition conv_typed (h : heap) (a : loc) : Prop :=
  exists c ts,
    h !! a = Some (OConv c)
    /\ h !! o_messages c = Some (OMsgs ts)
    /\ Forall (turn_typed h) ts
    /\ Forall (list_typed h) (fval_refs (o_roles c))
    /\ Forall (list_typed h) (fval_refs (o_stop_str c))
    /\ Forall (list_typed h) (fval_refs (o_stop_token_ids c)).

(** A computation that only reads gives the same result in [h] and [h']. *)
Definition same_on {A} (m : M A) (h h' : heap) : Prop :=
  fst (m h') = fst (m h) /\ snd (m h) = h /\ snd (m h') = h'.

(** The stores a client can reach: it looks templates up and mutates
    through references it was given, which are never those of the
    prototypes. *)
Inductive reachable : heap -> Prop :=
  | reach_init : reachable module_heap
  | reach_get name h :
      reachable h -> reachable (snd (get_conv_template name h))
  | reach_mut x mu h :
      reachable h -> length module_heap <= x ->
      reachable (snd (exec mu x h)).

(** ** Conversations used as test inputs *)

(** The values of the two registered templates. *)
Definition plain_value : Conversation :=
  mkConversation [] (RTuple [AStr []; AStr []]) [] 0%Z PLAIN nl None
    (RAtom ANone) (RAtom ANone).

Definition v1_value : Conversation :=
  mkConversation v1_system
    (RTuple [AStr (str "USER"); AStr (str "ASSISTANT")]) [] 0%Z TWO
    (str " ") (Some (str "</s>")) (RAtom (AStr (str "</s>"))) (RAtom ANone).

Definition bare (style : SeparatorStyle) (sepa : pystr)
    (sepb : option pystr) (ms : list turn) : Conversation :=
  mkConversation [] (RTuple [AStr (str "USER"); AStr (str "ASSISTANT")]) ms
    0%Z style sepa sepb (RAtom ANone) (RAtom ANone).

(** One turn whose content is the empty string. *)
Definition two_empty_content : Conversation :=
  bare TWO (str " ") (Some (str "</s>")) [(str "A", Some [])].

Definition single_empty_content : Conversation :=
  bare SINGLE (str "#") None [(str "A", Some [])].

(** Plain style without a separator, content ending in a blank. *)
Definition plain_no_sep : Conversation :=
  bare PLAIN [] None [([], Some (str "a "))].

(** Plain style, content equal to the separator. *)
Definition plain_content_is_sep : Conversation :=
  bare PLAIN (str "#") None [([], Some (str "#"))].

Definition plain_two_turns : Conversation :=
  with_messages plain_value
    [([], Some (str "<image>")); ([], Some (str "A red block."))].

Definition chatml_two_turns : Conversation :=
  bare CHATML (str "<|im_end|>") None
    [(str "<|im_start|>user", Some (str "Hi"));
     (str "<|im_start|>assistant", None)].

Definition v1_two_turns : Conversation :=
  with_messages v1_value
    [(str "USER", Some (str "Hi")); (str "ASSISTANT", None)].

(** The store after the two-separator scenario, and the value of the
    conversation it built (at location 5). *)
Definition dialogue_heap : heap := snd (v1_scenario module_heap).

Definition dialogue_value : Conversation :=
  with_messages v1_value
    [ (str "USER", Some (str "<image>" ++ nl ++ str "Describe it."));
      (str "ASSISTANT", Some (str "It is red."));
      (str "USER", Some (str "What shape?"));
      (str "ASSISTANT", Some (str "It is square."));
      (str "ASSISTANT", None) ].

(** The "v1" template with its second separator removed. *)
Definition v1_without_sep2_heap : heap :=
  [OMsgs []; OConv (set_scalar (SSep2 None) (conv_vicuna_v1_obj 0))].

Definition v1_without_sep2 : Conversation :=
  mkConversation v1_system
    (RTuple [AStr (str "USER"); AStr (str "ASSISTANT")]) [] 0%Z TWO
    (str " ") None (RAtom (AStr (str "</s>"))) (RAtom ANone).

(** A turn whose content is absent or a non-empty string. *)
Definition nonempty_content (t : turn) : Prop := snd t <> Some [].

(** The condition under which assembly is refused. *)
Definition lacks_sep2 (c : Conversation) : Prop :=
  (sep_style c = TWO \/ sep_style c = VICUNA) /\ sep2 c = None.

(** ** Further operations and inputs

    A sequence of [append_message] calls, one per turn. *)
Definition append_muts (ts : list turn) : list mutation :=
  map (fun t => AppendMessage (fst t) (snd t)) ts.

(** What the markup-delimited style adds after its former last turn once
    another turn follows it. *)
Definition chatml_glue (style : SeparatorStyle) (ms : list turn) : pystr :=
  match style, last ms with
  | CHATML, Some (_, Some (_ :: _)) => nl
  | _, _ => []
  end.

(** A markup-delimited conversation with one turn, in a store of its own
    (at location 2). *)
Definition chatml_one_turn : Conversation :=
  bare CHATML (str "<|im_end|>") None
    [(str "<|im_start|>user", Some (str "Hi"))].

Definition chatml_heap : heap :=
  [ OTurn (str "<|im_start|>user") (Some (str "Hi")); OMsgs [0];
    OConv (mkConvObj [] (FTuple [AStr (str "USER"); AStr (str "ASSISTANT")])
             1 0%Z CHATML (str "<|im_end|>") None (FAtom ANone)
             (FAtom ANone)) ].

(** ** [Conversation.dict]

    [SeparatorStyle.name]. *)
Definition style_name (st : SeparatorStyle) : pystr :=
  match st with
  | SINGLE => str "SINGLE"
  | TWO => str "TWO"
  | MPT => str "MPT"
  | PLAIN => str "PLAIN"
  | LLAMA_2 => str "LLAMA_2"
  | VICUNA => str "VICUNA"
  | CHATML => str "CHATML"
  | CHATGLM => str "CHATGLM"
  | DOLLY => str "DOLLY"
  | RWKV => str "RWKV"
  | PHOENIX => str "PHOENIX"
  | ROBIN => str "ROBIN"
  | FALCON_CHAT => str "FALCON_CHAT"
  end.

Definition opt_atom (s : option pystr) : atom :=
  match s with Some x => AStr x | None => ANone end.

(** The items of the returned dict, in insertion order.  An attribute that
    holds a list is entered as it is: the dict refers to the same list. *)
Definition dict_items (c : ConvObj) : list (pystr * fval) :=
  [ (str "system", FAtom (AStr (o_system c)));
    (str "roles", o_roles c);
    (str "messages", FRef (o_messages c));
    (str "offset", FAtom (AInt (o_offset c)));
    (str "sep_style", FAtom (AStr (style_name (o_sep_style c))));
    (str "sep", FAtom (AStr (o_sep c)));
    (str "sep2", FAtom (opt_atom (o_sep2 c)));
    (str "stop_str", o_stop_str c);
    (str "stop_token_ids", o_stop_token_ids c) ].

Definition dict (self : loc) : M (list (pystr * fval)) :=
  c <- read_conv self ;; ret (dict_items c).

(** What a holder of the dict reads in it: each value, with the list it
    refers to read out of the store. *)
Inductive sval : Type :=
  | SVal (r : rval)
  | SMsgs (xs : list turn).

Definition read_entry (e : pystr * fval) : M (pystr * sval) :=
  if decide (fst e = str "messages") then
    match snd e with
    | FRef m =>
        ts <- read_msgs m ;; xs <- load_turns ts ;; ret (fst e, SMsgs xs)
    | _ => raise Fault
    end
  else r <- load_fval (snd e) ;; ret (fst e, SVal r).

Fixpoint read_snapshot (d : list (pystr * fval)) : M (list (pystr * sval)) :=
  match d with
  | [] => ret []
  | e :: d' =>
      x <- read_entry e ;; xs <- read_snapshot d' ;; ret (x :: xs)
  end.

(** The snapshot of a conversation value. *)
Definition snapshot_of (v : Conversation) : list (pystr * sval) :=
  [ (str "system", SVal (RAtom (AStr (system v))));
    (str "roles", SVal (roles v));
    (str "messages", SMsgs (messages v));
    (str "offset", SVal (RAtom (AInt (offset v))));
    (str "sep_style", SVal (RAtom (AStr (style_name (sep_style v)))));
    (str "sep", SVal (RAtom (AStr (sep v))));
    (str "sep2", SVal (RAtom (opt_atom (sep2 v))));
    (str "stop_str", SVal (stop_str v));
    (str "stop_token_ids", SVal (stop_token_ids v)) ].

(** The fields of the object [c] have the value [v] in the store [h]. *)
Definition fields_load (h : heap) (c : ConvObj) (v : Conversation) : Prop :=
  exists ts,
    h !! o_messages c = Some (OMsgs ts)
    /\ fval_loads h (o_roles c) (roles v)
    /\ Forall2 (turn_loads h) ts (messages v)
    /\ fval_loads h (o_stop_str c) (stop_str v)
    /\ fval_loads h (o_stop_token_ids c) (stop_token_ids v)
    /\ system v = o_system c /\ offset v = o_offset c
    /\ sep_style v = o_sep_style c /\ sep v = o_sep c /\ sep2 v = o_sep2 c.

(** A conversation with another style. *)
Definition with_style (c : Conversation) (st : SeparatorStyle)
    : Conversation :=
  mkConversation (system c) (roles c) (messages c) (offset c) st (sep c)
    (sep2 c) (stop_str c) (stop_token_ids c).

(** The styles for which [get_prompt] has no branch of their own. *)
Definition fallback (st : SeparatorStyle) : Prop :=
  st <> TWO /\ st <> VICUNA /\ st <> PLAIN /\ st <> CHATML.

(** The store has no dangling reference and the locations [rs] are
    allocated. *)
Definition valid_refs (rs : list loc) (h : heap) : Prop :=
  heap_wf h /\ Forall (fun r => r < length h) rs.

(** The stores reached when clients look templates up, mutate through the
    references the lookups returned, and append turns through
    [default_conversation]: [cl] lists the references returned so far, [ts]
    the turns appended through [default_conversation], in order. *)
Inductive shared_reachable : list loc -> list turn -> heap -> Prop :=
  | sr_init : shared_reachable [] [] module_heap
  | sr_get name cl ts h :
      shared_reachable cl ts h ->
      shared_reachable
        (match fst (get_conv_template name h) with
         | Ok b => b :: cl
         | Raise _ => cl
         end) ts (snd (get_conv_template name h))
  | sr_mut x mu cl ts h :
      shared_reachable cl ts h -> x ∈ cl ->
      shared_reachable cl ts (snd (exec mu x h))
  | sr_append role message cl ts h :
      shared_reachable cl ts h ->
      shared_reachable cl (ts ++ [(role, message)])
        (snd (append_message default_conversation role message h)).

(** What holds in every such store: the prototype objects form a region
    [F] that refers to itself only, that nothing else refers to and that
    holds none of the returned references; the objects of "plain" and the
    instance of "v1" are as registered and "v1" has the appended turns. *)
Definition shared_inv (cl : list loc) (ts : list turn) (h : heap) : Prop :=
  exists F : loc -> Prop,
    separated F h h /\ closed F h
    /\ F conv_llava_plain /\ F conv_vicuna_v1
    /\ h !! 0 = Some (OMsgs [])
    /\ h !! conv_llava_plain = Some (OConv (conv_llava_plain_obj 0))
    /\ h !! conv_vicuna_v1 = Some (OConv (conv_vicuna_v1_obj 2))
    /\ loads h conv_vicuna_v1 (with_messages v1_value ts)
    /\ heap_wf h
    /\ Forall (fun b => ~ F b /\ b < length h) cl.

(** * Properties *)

(** ** Small checks of the string primitives *)

Example rstrip_ex : rstrip (str " a b " ++ nl) = str " a b".
Proof. reflexivity. Qed.

Example endswith_ex : endswith (str "abc") (str "bc") = true
                      /\ endswith (str "c") (str "bc") = false
                      /\ endswith [] [] = true.
Proof. vm_compute. auto. Qed.


(** ** Strings *)

Section StringFacts.

Implicit Types s r suf p w : pystr.

Lemma endswith_suffix s suf : endswith s suf = true <-> suf `suffix_of` s.
Proof.
  unfold endswith. rewrite andb_true_iff, Nat.leb_le, bool_decide_eq_true.
  split.
  - intros [_ Hd]. exists (take (length s - length suf) s).
    rewrite <- Hd at 2. by rewrite take_drop.
  - intros [k ->]. rewrite length_app. split; [lia|].
    replace (length k + length suf - length suf) with (length k) by lia.
    by rewrite drop_app_length.
Qed.

Lemma endswith_false s suf : endswith s suf = false <-> ~ suf `suffix_of` s.
Proof.
  rewrite <- endswith_suffix. destruct (endswith s suf); split; congruence.
Qed.

Lemma endswith_app r suf : endswith (r ++ suf) suf = true.
Proof. apply endswith_suffix. by exists r. Qed.

(** A trimmed string is empty or ends with a character that is not
    whitespace. *)
Lemma rstrip_last s p c : rstrip s = p ++ [c] -> isspace c = false.
Proof.
  revert p. induction s as [|a s IH]; intros p; simpl.
  - by destruct p.
  - destruct (rstrip s) as [|b r] eqn:E.
    + destruct (isspace a) eqn:Ha; [by destruct p|].
      destruct p as [|? [|? ?]]; simpl; intros [= <-]; auto.
    + destruct p as [|a' p']; simpl.
      * intros [= _ ?]; discriminate.
      * intros [= _ Hp]. by apply (IH p').
Qed.

(** Trimming removes a suffix made of whitespace only. *)
Lemma rstrip_decompose s :
  exists w, s = rstrip s ++ w /\ forallb isspace w = true.
Proof.
  induction s as [|a s (w & Hs & Hw)]; simpl.
  - by exists [].
  - destruct (rstrip s) as [|b r] eqn:E.
    + destruct (isspace a) eqn:Ha.
      * exists (a :: w). simpl in *. rewrite Ha, Hw. by rewrite Hs at 1.
      * exists w. simpl in *. by rewrite Hs at 1.
    + exists w. split; [|done]. simpl. by rewrite Hs at 1.
Qed.

Lemma rstrip_not_endswith_space s suf :
  suf <> [] -> forallb isspace suf = true -> endswith (rstrip s) suf = false.
Proof.
  intros Hne Hws. apply endswith_false. intros [k Hk].
  destruct (exists_last Hne) as (suf' & c & ->).
  rewrite forallb_app in Hws. simpl in Hws.
  rewrite app_assoc in Hk. apply rstrip_last in Hk.
  rewrite Hk in Hws. by rewrite andb_false_r in Hws.
Qed.

(** The specified post-processing always leaves the separator at the end. *)
Lemma spec_plain_post_endswith suf s :
  endswith (spec_plain_post suf s) suf = true.
Proof.
  unfold spec_plain_post.
  destruct (endswith (rstrip s) suf) eqn:E; [done | apply endswith_app].
Qed.

(** With a separator made of whitespace only it leaves exactly one. *)
Lemma spec_plain_post_space suf s :
  suf <> [] -> forallb isspace suf = true ->
  spec_plain_post suf s = rstrip s ++ suf
  /\ endswith (spec_plain_post suf s) (suf ++ suf) = false.
Proof.
  intros Hne Hws. unfold spec_plain_post.
  pose proof (rstrip_not_endswith_space s suf Hne Hws) as E.
  rewrite E. split; [done|].
  apply endswith_false. intros [k Hk].
  rewrite app_assoc in Hk. apply app_inv_tail in Hk.
  apply endswith_false in E. apply E. by exists k.
Qed.

End StringFacts.

(** ** The loops as concatenations of turn texts *)

Local Arguments Nat.modulo : simpl never.

Lemma two_loop_text sepa sepb ret i msgs :
  two_loop [sepa; sepb] ret i msgs
  = ret ++ turns_text (two_turn sepa sepb) i msgs.
Proof.
  revert ret i. induction msgs as [|[role message] rest IH]; intros ret i.
  - cbn [two_loop turns_text]. by rewrite app_nil_r.
  - assert (Hnth : nth (i mod 2) [sepa; sepb] []
                   = if Nat.even i then sepa else sepb).
    { rewrite <- Nat.bit0_mod, Nat.bit0_odd, <- Nat.negb_even.
      by destruct (Nat.even i). }
    destruct message as [[|ch m]|]; cbn [two_loop turns_text two_turn fst snd];
      rewrite IH, ?Hnth, <- ?app_assoc; try done.
Qed.

Lemma default_loop_text style sepa n ret i msgs :
  i + length msgs = n ->
  default_loop style sepa n ret i msgs
  = ret ++ turns_text (default_turn style sepa n) i msgs.
Proof.
  revert ret i. induction msgs as [|[role message] rest IH]; intros ret i Hn.
  - cbn [default_loop turns_text]. by rewrite app_nil_r.
  - cbn [length] in Hn.
    destruct message as [[|ch m]|];
      cbn [default_loop turns_text default_turn spec_default_turn fst snd];
      destruct style; repeat case_decide; try done;
      rewrite IH by lia; rewrite <- ?app_assoc; try done;
      destruct (Z.ltb_spec (Z.of_nat i) (Z.of_nat n - 1)); try done; lia.
Qed.

Lemma loop_result_body c : loop_result c = default_body c.
Proof. unfold loop_result, default_body. by apply default_loop_text. Qed.

(** The value [get_prompt] returns, branch by branch. *)
Lemma get_prompt_two c sepb :
  sep_style c = TWO \/ sep_style c = VICUNA -> sep2 c = Some sepb ->
  get_prompt c = Ok (two_assemble c sepb).
Proof.
  intros Hst H2. unfold get_prompt, two_assemble.
  rewrite decide_True, H2 by done. cbn [nth].
  rewrite two_loop_text. by destruct (system c).
Qed.

Lemma get_prompt_default c :
  ~ (sep_style c = TWO \/ sep_style c = VICUNA) ->
  get_prompt c = Ok (final_cleanup c (loop_result c)).
Proof.
  intros Hst. unfold get_prompt. rewrite decide_False by done.
  f_equal. unfold final_cleanup, loop_result, default_preamble.
  replace (if truthy (system c)
           then if decide (sep_style c <> CHATML)
                then ([] ++ system c) ++ sep c else [] ++ system c
           else [])
    with (match system c with
          | [] => []
          | _ => match sep_style c with
                 | CHATML => system c
                 | _ => system c ++ sep c
                 end
          end).
  2:{ destruct (system c); cbn [truthy app]; [done|].
      case_decide as Hc; destruct (sep_style c); try done; by destruct Hc. }
  case_decide as Hp; [rewrite Hp | by destruct (sep_style c)].
  destruct (sep c) eqn:Hs; cbn [truthy]; [done|].
  unfold spec_plain_post. by destruct (endswith _ _).
Qed.

Lemma turns_text_app f i xs ys :
  turns_text f i (xs ++ ys)
  = turns_text f i xs ++ turns_text f (i + length xs) ys.
Proof.
  revert i. induction xs as [|x xs IH]; intros i; cbn [app turns_text length].
  - by rewrite Nat.add_0_r.
  - rewrite IH, <- app_assoc. do 3 f_equal. lia.
Qed.

Lemma turns_text_ext (P : turn -> Prop) f g i ts :
  Forall P ts -> (forall j t, P t -> f j t = g j t) ->
  turns_text f i ts = turns_text g i ts.
Proof.
  intros Hall Hfg. revert i.
  induction Hall as [|t ts Ht _ IH]; intros i; cbn [turns_text]; [done|].
  by rewrite (Hfg i t Ht), IH.
Qed.

Lemma two_turn_nonempty sepa sepb i t :
  nonempty_content t -> two_turn sepa sepb i t = spec_two_turn sepa sepb i t.
Proof. destruct t as [r [[|ch m]|]]; unfold nonempty_content; by cbn. Qed.

Lemma default_turn_nonempty style sepa n i t :
  nonempty_content t ->
  default_turn style sepa n i t = spec_default_turn style sepa n i t.
Proof. destruct t as [r [[|ch m]|]]; unfold nonempty_content; by cbn. Qed.

(** The loops do not tell empty content from absent content. *)
Lemma two_loop_as_absent seps ret i msgs :
  two_loop seps ret i (map as_absent msgs) = two_loop seps ret i msgs.
Proof.
  revert ret i. induction msgs as [|[r [[|ch m]|]] rest IH]; intros ret i;
    cbn [map as_absent snd fst two_loop]; by rewrite ?IH.
Qed.

Lemma default_loop_as_absent style sepa n ret i msgs :
  default_loop style sepa n ret i (map as_absent msgs)
  = default_loop style sepa n ret i msgs.
Proof.
  revert ret i. induction msgs as [|[r [[|ch m]|]] rest IH]; intros ret i;
    cbn [map as_absent snd fst default_loop]; by rewrite ?IH.
Qed.

Lemma get_prompt_as_absent c ms :
  get_prompt (with_messages c (map as_absent ms))
  = get_prompt (with_messages c ms).
Proof.
  unfold get_prompt, with_messages; cbn [sep_style sep2 sep system messages].
  case_decide.
  - destruct (sep2 c); [|done]. by rewrite two_loop_as_absent.
  - by rewrite length_map, default_loop_as_absent.
Qed.

(** ** Reading the store leaves it as it is *)

Lemma read_heap l h : snd (read l h) = h.
Proof. unfold read. by destruct (h !! l). Qed.

Ltac read_only :=
  repeat first
    [ done
    | progress cbn [snd fst]
    | match goal with
      | |- context [read ?l ?h] =>
          unfold read; destruct (h !! l) as [[]|]
      end
    | progress unfold bind, ret, raise, lift, read_conv, read_msgs,
        read_turn, read_list ].

Lemma read_conv_heap l h : snd (read_conv l h) = h.
Proof. read_only. Qed.

Lemma read_msgs_heap l h : snd (read_msgs l h) = h.
Proof. read_only. Qed.

Lemma read_turn_heap l h : snd (read_turn l h) = h.
Proof. read_only. Qed.

Lemma read_list_heap l h : snd (read_list l h) = h.
Proof. read_only. Qed.

Lemma load_fval_heap v h : snd (load_fval v h) = h.
Proof. destruct v; cbn [load_fval]; read_only. Qed.

Lemma bind_heap {A B} (m : M A) (f : A -> M B) h :
  snd (m h) = h -> (forall a, snd (f a h) = h) -> snd (bind m f h) = h.
Proof.
  unfold bind. destruct (m h) as [[a|e] h'] eqn:E; cbn [snd]; intros ->; auto.
Qed.

Lemma load_turns_heap ts h : snd (load_turns ts h) = h.
Proof.
  induction ts as [|t ts IH]; cbn [load_turns]; [done|].
  apply bind_heap; [apply read_turn_heap|]. intros x.
  apply bind_heap; [apply IH | done].
Qed.

Lemma load_heap self h : snd (load self h) = h.
Proof.
  unfold load.
  repeat (apply bind_heap;
          [ first [ apply read_conv_heap | apply read_msgs_heap
                  | apply load_fval_heap | apply load_turns_heap ]
          | intros ? ]).
  done.
Qed.

Lemma get_prompt_at_load self h c :
  fst (load self h) = Ok c -> get_prompt_at self h = (get_prompt c, h).
Proof.
  intros Hl. pose proof (load_heap self h) as Hh.
  unfold get_prompt_at, bind, lift.
  destruct (load self h) as [r h']. cbn [fst snd] in *. by subst.
Qed.

(** ** Prompt assembly *)

(** C1. The "v1" template, cloned from the catalog and extended with the
    five turns of the two-separator scenario, assembles to its system text
    followed by the turns with a blank after each USER turn, the
    end-of-sequence marker after each ASSISTANT turn and the open marker
    "ASSISTANT:" at the end. *)
Theorem v1_scenario_prompt :
  v1_system
  = str "A chat between a curious user and an artificial intelligence assistant. The assistant gives helpful, detailed, and polite answers to the user's questions."
  /\ fst (load conv_vicuna_v1 module_heap) = Ok v1_value
  /\ fst (v1_scenario module_heap)
     = Ok (v1_system ++ str " USER: <image>" ++ nl
           ++ str "Describe it. ASSISTANT: It is red.</s>USER: What shape? ASSISTANT: It is square.</s>ASSISTANT:").
Proof. repeat split; vm_compute; reflexivity. Qed.

(** C5. The "plain" template, cloned from the catalog and extended with the
    turns ("", "<image>") and ("", "A red block."), assembles to
    "<image>\nA red block.\n". *)
Theorem plain_scenario_prompt :
  fst (plain_scenario module_heap)
  = Ok (str "<image>" ++ nl ++ str "A red block." ++ nl).
Proof. vm_compute. reflexivity. Qed.

(** C10. A clone of the "plain" template without any turn assembles to the
    one-character string "\n": the cleanup appends the separator to the
    empty loop result. *)
Theorem plain_empty_prompt :
  fst (plain_empty_scenario module_heap) = Ok nl
  /\ fst (load conv_llava_plain module_heap) = Ok plain_value
  /\ loop_result plain_value = []
  /\ get_prompt plain_value = Ok nl.
Proof. repeat split; vm_compute; reflexivity. Qed.

(** C2, as stated, fails: under the two-separator style a turn whose content
    is the empty string is assembled as "A:", not as "A: " followed by the
    separator. *)
Lemma two_sep_empty_content_cex :
  (sep_style two_empty_content = TWO
   /\ sep2 two_empty_content = Some (str "</s>"))
  /\ get_prompt two_empty_content = Ok (str "A:")
  /\ spec_two_assemble two_empty_content (str "</s>") = str "A:  "
  /\ get_prompt two_empty_content
     <> Ok (spec_two_assemble two_empty_content (str "</s>")).
Proof. repeat split; vm_compute; congruence. Qed.

(** C2, amended. Under the two-separator style or its alias with both
    separators set, the prompt is the system part followed by the text of
    each turn: "<role>: <content>" and the separator of its index for
    non-empty content, "<role>:" alone for absent or empty content.  When no
    content is the empty string this is the rule as specified. *)
Theorem two_sep_assembly c sepb :
  sep_style c = TWO \/ sep_style c = VICUNA -> sep2 c = Some sepb ->
  get_prompt c = Ok (two_assemble c sepb)
  /\ (Forall nonempty_content (messages c) ->
      get_prompt c = Ok (spec_two_assemble c sepb)).
Proof.
  intros Hst H2. rewrite (get_prompt_two c sepb Hst H2). split; [done|].
  intros Hne. unfold two_assemble, spec_two_assemble. do 2 f_equal.
  apply (turns_text_ext nonempty_content); [done|].
  intros j t. apply two_turn_nonempty.
Qed.

Lemma two_sep_assembly_witness :
  get_prompt v1_two_turns
  = Ok (v1_system ++ str " USER: Hi ASSISTANT:").
Proof.
  destruct (two_sep_assembly v1_two_turns (str "</s>")) as [H _];
    [left; reflexivity | reflexivity |].
  rewrite H. vm_compute. reflexivity.
Defined.

(** C9. A turn whose content is the empty string is assembled like a turn
    whose content is absent.  The prompt of a history with such a turn is
    the prompt of the same history with the content absent.  Under the
    two-separator style it is the system part, the text of the turns before,
    then "<role>:" with no ": " suffix and no separator, then the text of
    the turns after; on the default path it is, before the plain cleanup,
    the system part, the text of the turns before, then the absent-content
    form of the style ("<role>" and the separator for plain, "<role>" and a
    newline for the markup-delimited style, "<role>" alone otherwise), then
    the text of the turns after.  Both loops take the same step for empty
    and for absent content. *)
Theorem empty_content_as_absent c pre role post :
  let n := length (pre ++ (role, Some []) :: post) in
  let form := match sep_style c with
              | PLAIN => role ++ sep c
              | CHATML => role ++ nl
              | _ => role
              end in
  get_prompt (with_messages c (pre ++ (role, Some []) :: post))
  = get_prompt (with_messages c (pre ++ (role, None) :: post))
  /\ (sep_style c = TWO \/ sep_style c = VICUNA ->
      forall sepb, sep2 c = Some sepb ->
      get_prompt (with_messages c (pre ++ (role, Some []) :: post))
      = Ok (preamble (system c) (sep c)
            ++ turns_text (two_turn (sep c) sepb) 0 pre
            ++ (role ++ str ":")
            ++ turns_text (two_turn (sep c) sepb) (S (length pre)) post))
  /\ (~ (sep_style c = TWO \/ sep_style c = VICUNA) ->
      get_prompt (with_messages c (pre ++ (role, Some []) :: post))
      = Ok (final_cleanup c
              (default_preamble c
               ++ turns_text (default_turn (sep_style c) (sep c) n) 0 pre
               ++ form
               ++ turns_text (default_turn (sep_style c) (sep c) n)
                    (S (length pre)) post)))
  /\ (forall seps ret i rest,
        two_loop seps ret i ((role, Some []) :: rest)
        = two_loop seps (ret ++ (role ++ str ":")) (S i) rest
        /\ two_loop seps ret i ((role, None) :: rest)
           = two_loop seps (ret ++ (role ++ str ":")) (S i) rest)
  /\ (forall style sepa k ret i rest,
        let form := match style with
                    | PLAIN => role ++ sepa
                    | CHATML => role ++ nl
                    | _ => role
                    end in
        default_loop style sepa k ret i ((role, Some []) :: rest)
        = default_loop style sepa k (ret ++ form) (S i) rest
        /\ default_loop style sepa k ret i ((role, None) :: rest)
           = default_loop style sepa k (ret ++ form) (S i) rest).
Proof.
  intros n form. split; [|split; [|split; [|split]]].
  - rewrite <- (get_prompt_as_absent c (pre ++ (role, Some []) :: post)).
    rewrite <- (get_prompt_as_absent c (pre ++ (role, None) :: post)).
    by rewrite !map_app.
  - intros Hst sepb H2. rewrite (get_prompt_two _ sepb) by done.
    unfold two_assemble. cbn [with_messages system sep messages].
    rewrite turns_text_app. cbn [turns_text two_turn fst snd Nat.add].
    by rewrite <- !app_assoc.
  - intros Hst. rewrite get_prompt_default by done.
    rewrite loop_result_body. unfold default_body, default_preamble.
    cbn [with_messages system sep sep_style messages].
    rewrite turns_text_app. cbn [turns_text Nat.add].
    assert (Hform : forall k, default_turn (sep_style c) (sep c) k
                                (length pre) (role, Some []) = form).
    { intros k. subst form. unfold default_turn, spec_default_turn.
      cbn [fst snd]. by destruct (sep_style c). }
    rewrite Hform. subst n. unfold final_cleanup.
    cbn [with_messages sep_style sep]. by rewrite <- ?app_assoc.
  - done.
  - intros style sepa k ret i rest form'. subst form'.
    cbn [default_loop]. destruct style; by repeat case_decide.
Qed.

Lemma empty_content_as_absent_witness :
  get_prompt
    (with_messages v1_value
       [(str "USER", Some (str "Hi")); (str "ASSISTANT", Some []);
        (str "USER", Some (str "Why?"))])
  = Ok (v1_system ++ str " USER: Hi ASSISTANT:USER: Why? ")
  /\ get_prompt
       (with_messages chatml_one_turn
          [(str "<|im_start|>user", Some (str "Hi"));
           (str "<|im_start|>assistant", Some [])])
     = Ok (str "<|im_start|>user" ++ nl ++ str "Hi<|im_end|>" ++ nl
           ++ str "<|im_start|>assistant" ++ nl).
Proof.
  split.
  - destruct (empty_content_as_absent v1_value
                [(str "USER", Some (str "Hi"))] (str "ASSISTANT")
                [(str "USER", Some (str "Why?"))]) as (_ & H & _).
    cbn [app] in H.
    etrans; [apply (H (or_introl eq_refl) (str "</s>") eq_refl)|].
    vm_compute. reflexivity.
  - destruct (empty_content_as_absent chatml_one_turn
                [(str "<|im_start|>user", Some (str "Hi"))]
                (str "<|im_start|>assistant") []) as (_ & _ & H & _).
    cbn [app] in H.
    etrans; [apply H; intros [|]; discriminate|].
    vm_compute. reflexivity.
Defined.

Lemma get_prompt_raises c e : get_prompt c = Raise e -> lacks_sep2 c.
Proof.
  unfold get_prompt, lacks_sep2. case_decide; [|done].
  by destruct (sep2 c).
Qed.

Lemma lacks_sep2_raises c :
  lacks_sep2 c -> get_prompt c = Raise (ValueError missing_sep2_msg).
Proof.
  intros [Hst H2]. unfold get_prompt. by rewrite decide_True, H2.
Qed.

(** C3. Assembly raises the missing-secondary-separator error exactly when
    the style is the two-separator style or its alias and [sep2] is unset,
    whatever the system text and the history; it raises nothing else, it
    returns a string in every other case, and the call, failed or not,
    leaves the store as it was. *)
Theorem missing_sep2_iff h self c :
  fst (load self h) = Ok c ->
  get_prompt_at self h = (get_prompt c, h)
  /\ (get_prompt c = Raise (ValueError missing_sep2_msg) <-> lacks_sep2 c)
  /\ ((exists e, get_prompt c = Raise e) <-> lacks_sep2 c)
  /\ ((exists s, get_prompt c = Ok s) <-> ~ lacks_sep2 c).
Proof.
  intros Hl. split; [by apply get_prompt_at_load|].
  split; [|split].
  - split; [apply get_prompt_raises | apply lacks_sep2_raises].
  - split; [intros [e He]; by apply (get_prompt_raises c e)|].
    intros Hc. eexists. by apply lacks_sep2_raises.
  - split.
    + intros [s Hs] Hc. apply lacks_sep2_raises in Hc. congruence.
    + intros Hc. destruct (get_prompt c) as [s|e] eqn:E; [by exists s|].
      destruct Hc. by apply (get_prompt_raises c e).
Qed.

Lemma missing_sep2_iff_witness :
  get_prompt_at 1 v1_without_sep2_heap
  = (Raise (ValueError missing_sep2_msg), v1_without_sep2_heap).
Proof.
  destruct (missing_sep2_iff v1_without_sep2_heap 1 v1_without_sep2)
    as (Hat & Hiff & _); [reflexivity|].
  assert (Hr : get_prompt v1_without_sep2
               = Raise (ValueError missing_sep2_msg))
    by (apply Hiff; split; [left|]; reflexivity).
  rewrite Hat, Hr. reflexivity.
Defined.

(** C4, as stated, fails twice: without a separator the plain style does
    not trim, and when the content ends with a separator that is not
    whitespace the result ends with two separators. *)
Lemma plain_cleanup_cex :
  (sep_style plain_no_sep = PLAIN
   /\ get_prompt plain_no_sep = Ok (str "a ")
   /\ get_prompt plain_no_sep
      <> Ok (spec_plain_post (sep plain_no_sep) (loop_result plain_no_sep)))
  /\ (sep_style plain_content_is_sep = PLAIN
      /\ get_prompt plain_content_is_sep = Ok (str "##")
      /\ endswith (str "##")
           (sep plain_content_is_sep ++ sep plain_content_is_sep) = true).
Proof. repeat split; vm_compute; congruence. Qed.

(** C4, amended. In the plain style with a non-empty separator the loop
    result is trimmed of trailing whitespace and the separator is appended
    unless the trimmed string already ends with it, so the prompt always
    ends with the separator; when the separator consists of whitespace only
    the prompt is the trimmed loop result followed by exactly one separator.
    With an empty separator the plain style returns the loop result as it
    is, and so does every other style of the default path; the
    two-separator branch returns what its own loop built. *)
Theorem plain_cleanup_spec c :
  (sep_style c = PLAIN -> sep c <> [] ->
     get_prompt c = Ok (spec_plain_post (sep c) (loop_result c))
     /\ endswith (spec_plain_post (sep c) (loop_result c)) (sep c) = true
     /\ (forallb isspace (sep c) = true ->
         spec_plain_post (sep c) (loop_result c)
         = rstrip (loop_result c) ++ sep c
         /\ endswith (spec_plain_post (sep c) (loop_result c))
              (sep c ++ sep c) = false))
  /\ (sep_style c = PLAIN -> sep c = [] -> get_prompt c = Ok (loop_result c))
  /\ (sep_style c <> PLAIN ->
      ~ (sep_style c = TWO \/ sep_style c = VICUNA) ->
      get_prompt c = Ok (loop_result c))
  /\ (sep_style c = TWO \/ sep_style c = VICUNA ->
      forall sepb, sep2 c = Some sepb ->
      get_prompt c
      = Ok (two_loop [sep c; sepb] (preamble (system c) (sep c)) 0
              (messages c))).
Proof.
  split; [|split; [|split]].
  - intros Hp Hs. rewrite get_prompt_default by (rewrite Hp; intros [|]; done).
    unfold final_cleanup. rewrite Hp.
    split; [by destruct (sep c)|].
    split; [apply spec_plain_post_endswith|].
    intros Hws. by apply spec_plain_post_space.
  - intros Hp Hs. rewrite get_prompt_default by (rewrite Hp; intros [|]; done).
    unfold final_cleanup. by rewrite Hp, Hs.
  - intros Hp Hst. rewrite get_prompt_default by done.
    unfold final_cleanup. by destruct (sep_style c).
  - intros Hst sepb H2. rewrite (get_prompt_two c sepb Hst H2).
    unfold two_assemble. by rewrite two_loop_text.
Qed.

Lemma plain_cleanup_spec_witness :
  get_prompt plain_two_turns
  = Ok (str "<image>" ++ nl ++ str "A red block." ++ nl)
  /\ endswith (str "<image>" ++ nl ++ str "A red block." ++ nl)
       (nl ++ nl) = false.
Proof.
  destruct (plain_cleanup_spec plain_two_turns) as [H _].
  destruct H as (Hg & _ & Hone); [reflexivity | discriminate |].
  destruct Hone as [_ Hone]; [reflexivity|].
  split; [rewrite Hg; vm_compute; reflexivity | exact Hone].
Defined.

(** C8, as stated, fails: on the default path a fallback style assembles a
    turn whose content is the empty string as "A", not as "A" followed by
    the separator. *)
Lemma default_path_empty_content_cex :
  ~ (sep_style single_empty_content = TWO
     \/ sep_style single_empty_content = VICUNA)
  /\ get_prompt single_empty_content = Ok (str "A")
  /\ final_cleanup single_empty_content
       (spec_default_body single_empty_content) = str "A#"
  /\ get_prompt single_empty_content
     <> Ok (final_cleanup single_empty_content
              (spec_default_body single_empty_content)).
Proof.
  split; [intros [|]; discriminate|].
  repeat split; vm_compute; congruence.
Qed.

(** C8, amended. On the default path the loop builds the system part (the
    system text followed by the separator, or the system text alone for the
    markup-delimited style, or nothing when the system text is empty)
    followed by the text of each turn.  For non-empty content: role, content
    and separator, with role, newline, content, separator and a further
    newline unless the turn is the last for the markup-delimited style.  For
    absent or empty content: role and separator for plain, role and newline
    for markup-delimited, the role alone otherwise.  The prompt is that
    string after the plain-style cleanup.  When no content is the empty
    string this is the rule as specified. *)
Theorem default_path_assembly c :
  ~ (sep_style c = TWO \/ sep_style c = VICUNA) ->
  loop_result c = default_body c
  /\ get_prompt c = Ok (final_cleanup c (default_body c))
  /\ (Forall nonempty_content (messages c) ->
      get_prompt c = Ok (final_cleanup c (spec_default_body c))).
Proof.
  intros Hst. split; [apply loop_result_body|].
  rewrite (get_prompt_default c Hst), loop_result_body. split; [done|].
  intros Hne. do 2 f_equal. unfold default_body, spec_default_body. f_equal.
  apply (turns_text_ext nonempty_content); [done|].
  intros j t. apply default_turn_nonempty.
Qed.

Lemma default_path_assembly_witness :
  get_prompt chatml_two_turns
  = Ok (str "<|im_start|>user" ++ nl ++ str "Hi<|im_end|>" ++ nl
        ++ str "<|im_start|>assistant" ++ nl).
Proof.
  destruct (default_path_assembly chatml_two_turns) as (_ & H & _);
    [intros [|]; discriminate|].
  rewrite H. vm_compute. reflexivity.
Defined.

(** ** Rules for triples *)

Section HoareRules.

Context {A B : Type}.

Lemma hoare_ret (a : A) (P : heap -> Prop) (Q : A -> heap -> Prop) E :
  (forall h, P h -> Q a h) -> hoare P (ret a) Q E.
Proof. intros H h Hp. by apply H. Qed.

Lemma hoare_raise e (P : heap -> Prop) (Q : A -> heap -> Prop)
    (E : heap -> Prop) :
  (forall h, P h -> E h) -> hoare P (raise e) Q E.
Proof. intros H h Hp. by apply H. Qed.

Lemma hoare_bind (m : M A) (f : A -> M B) P Q R E :
  hoare P m Q E -> (forall a, hoare (Q a) (f a) R E) ->
  hoare P (bind m f) R E.
Proof.
  intros Hm Hf h Hp. specialize (Hm h Hp). unfold bind.
  destruct (m h) as [[a|e] h']; [|done]. by apply Hf.
Qed.

Lemma hoare_weaken (m : M A) (P P' : heap -> Prop) (Q Q' : A -> heap -> Prop)
    (E E' : heap -> Prop) :
  hoare P' m Q' E' -> (forall h, P h -> P' h) ->
  (forall a h, Q' a h -> Q a h) -> (forall h, E' h -> E h) ->
  hoare P m Q E.
Proof.
  intros Hm HP HQ HE h Hp. specialize (Hm h (HP h Hp)).
  destruct (m h) as [[a|e] h']; auto.
Qed.

End HoareRules.

Lemma hoare_pure {A} (phi : Prop) (P : heap -> Prop) (m : M A) Q E :
  (phi -> hoare P m Q E) -> hoare (fun h => P h /\ phi) m Q E.
Proof. intros H h [Hp Hphi]. by apply H. Qed.

(** ** The frame of a mutation

    A computation that goes through references outside a region [F], in a
    store where nothing outside [F] refers into it, leaves the objects of
    [F] alone, whether it returns or raises. *)

Section Frame.

Variable F : loc -> Prop.
Variable href : heap.

Local Abbreviation I := (separated F href).

Lemma clean_turn r m : clean F (OTurn r m).
Proof. constructor. Qed.

Lemma clean_list xs : clean F (OList xs).
Proof. constructor. Qed.

Lemma clean_conv_messages c : clean F (OConv c) -> ~ F (o_messages c).
Proof. unfold clean. cbn [obj_refs]. by intros [? _]%Forall_cons. Qed.

Lemma clean_conv_aux f c :
  clean F (OConv c) -> Forall (fun r => ~ F r) (fval_refs (get_aux f c)).
Proof.
  unfold clean. cbn [obj_refs]. rewrite Forall_cons, !Forall_app.
  destruct f; cbn [get_aux]; tauto.
Qed.

Lemma clean_set_scalar a c : clean F (OConv c) -> clean F (OConv (set_scalar a c)).
Proof. by destruct a. Qed.

Lemma clean_set_aux f v c :
  clean F (OConv c) -> Forall (fun r => ~ F r) (fval_refs v) ->
  clean F (OConv (set_aux f v c)).
Proof.
  unfold clean. cbn [obj_refs]. rewrite Forall_cons, !Forall_app.
  destruct f; cbn [set_aux obj_refs o_messages o_roles o_stop_str
                     o_stop_token_ids];
    rewrite Forall_cons, !Forall_app; tauto.
Qed.

Lemma clean_set_messages m c :
  clean F (OConv c) -> ~ F m -> clean F (OConv (set_messages m c)).
Proof.
  unfold clean. cbn [obj_refs set_messages o_messages o_roles o_stop_str
                       o_stop_token_ids].
  rewrite !Forall_cons. tauto.
Qed.

Lemma frame_read l :
  ~ F l -> hoare I (read l) (fun o h => I h /\ clean F o) I.
Proof.
  intros Hl h Hi. unfold read. destruct (h !! l) as [o|] eqn:E; [|done].
  split; [done|]. destruct Hi as (_ & Hout & _). by apply (Hout l).
Qed.

Lemma frame_alloc o :
  clean F o -> hoare I (alloc o) (fun l h => I h /\ ~ F l) I.
Proof.
  intros Ho h (Hb & Hout & Hag). unfold alloc. split; [split; [|split]|].
  - intros l Hl. rewrite length_app. specialize (Hb l Hl). lia.
  - intros l o' Hl [Hin|[_ Hin]]%lookup_app_Some; [by apply (Hout l)|].
    apply list_lookup_singleton_Some in Hin as [_ <-]. done.
  - intros l Hl. rewrite lookup_app_l by by apply Hb. by apply Hag.
  - intros Hl. specialize (Hb _ Hl). lia.
Qed.

Lemma frame_write l o :
  ~ F l -> clean F o -> hoare I (write l o) (fun _ h => I h) I.
Proof.
  intros Hl Ho h (Hb & Hout & Hag). unfold write. split; [|split].
  - intros l' Hl'. rewrite length_insert. by apply Hb.
  - intros l' o' Hl' [(_ & <- & _)|[_ Hin]]%list_lookup_insert_Some;
      [done | by apply (Hout l')].
  - intros l' Hl'. rewrite list_lookup_insert_ne by congruence. by apply Hag.
Qed.

Lemma frame_read_conv x :
  ~ F x -> hoare I (read_conv x) (fun c h => I h /\ clean F (OConv c)) I.
Proof.
  intros Hx. eapply hoare_bind; [by apply frame_read|].
  intros [c|ts|r m|xs]; apply hoare_pure; intros Ho;
    first [by apply hoare_ret | by apply hoare_raise].
Qed.

Lemma frame_read_msgs x :
  ~ F x ->
  hoare I (read_msgs x) (fun ts h => I h /\ Forall (fun r => ~ F r) ts) I.
Proof.
  intros Hx. eapply hoare_bind; [by apply frame_read|].
  intros [c|ts|r m|xs]; apply hoare_pure; intros Ho;
    first [by apply hoare_ret | by apply hoare_raise].
Qed.

Lemma frame_read_turn x :
  ~ F x -> hoare I (read_turn x) (fun _ h => I h) I.
Proof.
  intros Hx. eapply hoare_bind; [by apply frame_read|].
  intros [c|ts|r m|xs]; apply hoare_pure; intros Ho;
    first [by apply hoare_ret | by apply hoare_raise].
Qed.

Lemma frame_read_list x :
  ~ F x -> hoare I (read_list x) (fun _ h => I h) I.
Proof.
  intros Hx. eapply hoare_bind; [by apply frame_read|].
  intros [c|ts|r m|xs]; apply hoare_pure; intros Ho;
    first [by apply hoare_ret | by apply hoare_raise].
Qed.

Lemma frame_alloc_turns ts :
  hoare I (alloc_turns ts)
    (fun ls h => I h /\ Forall (fun r => ~ F r) ls) I.
Proof.
  induction ts as [|t ts IH]; cbn [alloc_turns].
  - by apply hoare_ret.
  - eapply hoare_bind; [apply frame_alloc, clean_turn|].
    intros l. apply hoare_pure; intros Hl.
    eapply hoare_bind; [apply IH|].
    intros ls. apply hoare_pure; intros Hls.
    apply hoare_ret. intros h Hi. split; [done|]. by constructor.
Qed.

Lemma frame_entry x i :
  ~ F x ->
  hoare I (entry x i)
    (fun e h => I h /\ (~ F e.1.1.1 /\ Forall (fun r => ~ F r) e.1.1.2
                         /\ ~ F e.2)) I.
Proof.
  intros Hx. unfold entry.
  eapply hoare_bind; [by apply frame_read_conv|].
  intros c. apply hoare_pure; intros Hm%clean_conv_messages.
  eapply hoare_bind; [by apply frame_read_msgs|].
  intros ts. apply hoare_pure; intros Hts.
  destruct (py_index (length ts) i) as [j|]; [|by apply hoare_raise].
  destruct (ts !! j) as [t|] eqn:Et; [|by apply hoare_raise].
  apply hoare_ret. intros h Hi. split; [done|]. cbn [fst snd].
  split; [done|]. split; [done|].
  rewrite Forall_forall in Hts. apply Hts. by eapply list_elem_of_lookup_2.
Qed.

Lemma frame_append_message x role message :
  ~ F x -> hoare I (append_message x role message) (fun _ h => I h) I.
Proof.
  intros Hx. unfold append_message.
  eapply hoare_bind; [by apply frame_read_conv|].
  intros c. apply hoare_pure; intros Hm%clean_conv_messages.
  eapply hoare_bind; [by apply frame_read_msgs|].
  intros ts. apply hoare_pure; intros Hts.
  eapply hoare_bind; [apply frame_alloc, clean_turn|].
  intros t. apply hoare_pure; intros Ht.
  apply frame_write; [done|]. unfold clean. cbn [obj_refs].
  apply Forall_app. split; [done | by constructor].
Qed.

Lemma frame_exec mu x :
  ~ F x -> hoare I (exec mu x) (fun _ h => I h) I.
Proof.
  intros Hx. destruct mu as [role message|a|f v|f i a|f a|ts|i t|i|i r|i msg];
    cbn [exec].
  - by apply frame_append_message.
  - eapply hoare_bind; [by apply frame_read_conv|].
    intros c. apply hoare_pure; intros Hc.
    apply frame_write; [done | by apply clean_set_scalar].
  - eapply hoare_bind with
      (Q := fun v' h => I h /\ Forall (fun r => ~ F r) (fval_refs v')).
    { destruct v as [a|xs|xs]; [by apply hoare_ret..|].
      eapply hoare_bind; [apply frame_alloc, clean_list|].
      intros l. apply hoare_pure; intros Hl. apply hoare_ret.
      intros h Hi. split; [done|]. by constructor. }
    intros v'. apply hoare_pure; intros Hv'.
    eapply hoare_bind; [by apply frame_read_conv|].
    intros c. apply hoare_pure; intros Hc.
    apply frame_write; [done | by apply clean_set_aux].
  - eapply hoare_bind; [by apply frame_read_conv|].
    intros c. apply hoare_pure; intros Hc%(clean_conv_aux f).
    destruct (get_aux f c) as [?|?|l]; [by apply hoare_raise..|].
    apply Forall_cons in Hc as [Hl _].
    eapply hoare_bind; [by apply frame_read_list|].
    intros xs. destruct (py_index (length xs) i) as [j|];
      [by apply frame_write, clean_list | by apply hoare_raise].
  - eapply hoare_bind; [by apply frame_read_conv|].
    intros c. apply hoare_pure; intros Hc%(clean_conv_aux f).
    destruct (get_aux f c) as [?|?|l]; [by apply hoare_raise..|].
    apply Forall_cons in Hc as [Hl _].
    eapply hoare_bind; [by apply frame_read_list|].
    intros xs. by apply frame_write, clean_list.
  - eapply hoare_bind; [apply frame_alloc_turns|].
    intros ls. apply hoare_pure; intros Hls.
    eapply hoare_bind; [by apply frame_alloc|].
    intros m. apply hoare_pure; intros Hm.
    eapply hoare_bind; [by apply frame_read_conv|].
    intros c. apply hoare_pure; intros Hc.
    apply frame_write; [done | by apply clean_set_messages].
  - eapply hoare_bind; [apply frame_alloc, clean_turn|].
    intros l. apply hoare_pure; intros Hl.
    eapply hoare_bind; [by apply frame_entry|].
    intros [[[m ts] j] t']. apply hoare_pure; intros (Hm & Hts & _).
    cbn [fst snd] in *. apply frame_write; [done|].
    unfold clean. cbn [obj_refs]. by apply Forall_insert.
  - eapply hoare_bind; [by apply frame_entry|].
    intros [[[m ts] j] t']. apply hoare_pure; intros (Hm & Hts & _).
    cbn [fst snd] in *. apply frame_write; [done|].
    unfold clean. cbn [obj_refs]. by apply Forall_delete.
  - eapply hoare_bind; [by apply frame_entry|].
    intros [[[m ts] j] t']. apply hoare_pure; intros (_ & _ & Ht).
    cbn [fst snd] in *.
    eapply hoare_bind; [by apply frame_read_turn|].
    intros tu. by apply frame_write, clean_turn.
  - eapply hoare_bind; [by apply frame_entry|].
    intros [[[m ts] j] t']. apply hoare_pure; intros (_ & _ & Ht).
    cbn [fst snd] in *.
    eapply hoare_bind; [by apply frame_read_turn|].
    intros tu. by apply frame_write, clean_turn.
Qed.

Lemma frame_run_muts x ms h :
  ~ F x -> I h -> I (run_muts x ms h).
Proof.
  intros Hx. revert h. induction ms as [|mu ms IH]; intros h Hi; [done|].
  cbn [run_muts]. apply IH.
  pose proof (frame_exec mu x Hx h Hi) as He.
  by destruct (exec mu x h) as [[[]|e] h'].
Qed.

End Frame.

(** ** The value of a conversation depends on its region only *)

Section SameOn.

Context {A B : Type}.

Lemma same_ret (a : A) h h' : same_on (ret a) h h'.
Proof. done. Qed.

Lemma same_raise e h h' : same_on (raise (A := A) e) h h'.
Proof. done. Qed.

Lemma same_bind (m : M A) (f : A -> M B) h h' :
  same_on m h h' -> (forall a, fst (m h) = Ok a -> same_on (f a) h h') ->
  same_on (bind m f) h h'.
Proof.
  intros (Hr & Hh & Hh') Hf. unfold same_on, bind.
  destruct (m h) as [r1 h1], (m h') as [r2 h2]. cbn [fst snd] in *. subst.
  destruct r1 as [a|e]; [by apply Hf | done].
Qed.

End SameOn.

Lemma same_read l h h' : h' !! l = h !! l -> same_on (read l) h h'.
Proof.
  intros E. unfold same_on, read. rewrite E. by destruct (h !! l).
Qed.

Lemma read_conv_Ok l h c : fst (read_conv l h) = Ok c -> h !! l = Some (OConv c).
Proof.
  unfold read_conv, bind, read. destruct (h !! l) as [[]|]; cbn; congruence.
Qed.

Lemma read_msgs_Ok l h ts : fst (read_msgs l h) = Ok ts -> h !! l = Some (OMsgs ts).
Proof.
  unfold read_msgs, bind, read. destruct (h !! l) as [[]|]; cbn; congruence.
Qed.

Lemma read_turn_Ok l h t :
  fst (read_turn l h) = Ok t -> h !! l = Some (OTurn (fst t) (snd t)).
Proof.
  unfold read_turn, bind, read.
  destruct (h !! l) as [[]|]; cbn; try congruence. by intros [= <-].
Qed.

Lemma read_list_Ok l h xs : fst (read_list l h) = Ok xs -> h !! l = Some (OList xs).
Proof.
  unfold read_list, bind, read. destruct (h !! l) as [[]|]; cbn; congruence.
Qed.

Section Region.

Variable F : loc -> Prop.
Variables h h' : heap.
Hypothesis Hagree : agree F h h'.

Lemma same_read_conv l : F l -> same_on (read_conv l) h h'.
Proof.
  intros Hl. apply same_bind; [by apply same_read, Hagree|].
  by intros [].
Qed.

Lemma same_read_msgs l : F l -> same_on (read_msgs l) h h'.
Proof.
  intros Hl. apply same_bind; [by apply same_read, Hagree|].
  by intros [].
Qed.

Lemma same_read_turn l : F l -> same_on (read_turn l) h h'.
Proof.
  intros Hl. apply same_bind; [by apply same_read, Hagree|].
  by intros [].
Qed.

Lemma same_read_list l : F l -> same_on (read_list l) h h'.
Proof.
  intros Hl. apply same_bind; [by apply same_read, Hagree|].
  by intros [].
Qed.

Lemma same_load_fval v : Forall F (fval_refs v) -> same_on (load_fval v) h h'.
Proof.
  destruct v as [a|xs|l]; [done..|]. intros [Hl _]%Forall_cons.
  apply same_bind; [by apply same_read_list | done].
Qed.

Lemma same_load_turns ts : Forall F ts -> same_on (load_turns ts) h h'.
Proof.
  induction 1 as [|t ts Ht _ IH]; [done|]. cbn [load_turns].
  apply same_bind; [by apply same_read_turn|]. intros x _.
  apply same_bind; [apply IH | done].
Qed.

Lemma same_load a : closed F h -> F a -> same_on (load a) h h'.
Proof.
  intros Hcl Ha. unfold load.
  apply same_bind; [by apply same_read_conv|].
  intros c Hc%read_conv_Ok. apply (Hcl a _ Ha) in Hc.
  cbn [obj_refs] in Hc. rewrite Forall_cons, !Forall_app in Hc.
  destruct Hc as (Hm & Hr & Hs & Hids).
  apply same_bind; [by apply same_load_fval|]. intros r _.
  apply same_bind; [by apply same_read_msgs|].
  intros ts Hts%read_msgs_Ok. apply (Hcl _ _ Hm) in Hts. cbn [obj_refs] in Hts.
  apply same_bind; [by apply same_load_turns|]. intros msgs _.
  apply same_bind; [by apply same_load_fval|]. intros s _.
  apply same_bind; [by apply same_load_fval|]. intros ids _.
  done.
Qed.

Lemma same_get_prompt_at a : closed F h -> F a -> same_on (get_prompt_at a) h h'.
Proof.
  intros Hcl Ha. unfold get_prompt_at.
  apply same_bind; [by apply same_load | done].
Qed.

End Region.

(** ** [load] and the points-to reading of the store *)

Lemma bind_Ok {A B} (m : M A) (f : A -> M B) h b :
  snd (m h) = h ->
  fst (bind m f h) = Ok b <-> exists a, fst (m h) = Ok a /\ fst (f a h) = Ok b.
Proof.
  unfold bind. destruct (m h) as [[a|e] h']; cbn [fst snd]; intros ->.
  - split; [by exists a | by intros (? & [= <-] & ?)].
  - split; [done | by intros (? & ? & _)].
Qed.

Lemma read_list_iff l h xs :
  fst (read_list l h) = Ok xs <-> h !! l = Some (OList xs).
Proof.
  split; [apply read_list_Ok|]. intros E. unfold read_list, bind, read.
  by rewrite E.
Qed.

Lemma read_conv_iff l h c :
  fst (read_conv l h) = Ok c <-> h !! l = Some (OConv c).
Proof.
  split; [apply read_conv_Ok|]. intros E. unfold read_conv, bind, read.
  by rewrite E.
Qed.

Lemma read_msgs_iff l h ts :
  fst (read_msgs l h) = Ok ts <-> h !! l = Some (OMsgs ts).
Proof.
  split; [apply read_msgs_Ok|]. intros E. unfold read_msgs, bind, read.
  by rewrite E.
Qed.

Lemma read_turn_iff l h x : fst (read_turn l h) = Ok x <-> turn_loads h l x.
Proof.
  split; [apply read_turn_Ok|]. unfold turn_loads. intros E.
  unfold read_turn, bind, read. rewrite E. by destruct x.
Qed.

Lemma load_fval_iff v h r : fst (load_fval v h) = Ok r <-> fval_loads h v r.
Proof.
  destruct v as [a|xs|l]; cbn [load_fval fval_loads].
  - split; [by intros [= <-] | by intros ->].
  - split; [by intros [= <-] | by intros ->].
  - rewrite bind_Ok by apply read_list_heap. split.
    + intros (xs & Hx%read_list_iff & [= <-]). by exists xs.
    + intros (xs & Hx%read_list_iff & ->). by exists xs.
Qed.

Lemma load_turns_iff ts h xs :
  fst (load_turns ts h) = Ok xs <-> Forall2 (turn_loads h) ts xs.
Proof.
  revert xs. induction ts as [|t ts IH]; intros xs; cbn [load_turns].
  - split; [intros [= <-]; constructor | by intros ->%Forall2_nil_inv_l].
  - rewrite bind_Ok by apply read_turn_heap. split.
    + intros (x & Hx%read_turn_iff & Hrest).
      apply bind_Ok in Hrest as (xs' & Hxs%IH & [= <-]);
        [by constructor | apply load_turns_heap].
    + intros (x & xs' & Hx & Hxs & ->)%Forall2_cons_inv_l.
      exists x. split; [by apply read_turn_iff|].
      apply bind_Ok; [apply load_turns_heap|].
      exists xs'. split; [by apply IH | done].
Qed.

Lemma load_iff a h v : fst (load a h) = Ok v <-> loads h a v.
Proof.
  unfold load, loads.
  rewrite bind_Ok by apply read_conv_heap. split.
  - intros (c & Hc%read_conv_iff & H). exists c.
    apply bind_Ok in H as (r & Hr%load_fval_iff & H);
      [|apply load_fval_heap].
    apply bind_Ok in H as (ts & Hts%read_msgs_iff & H);
      [|apply read_msgs_heap].
    apply bind_Ok in H as (msgs & Hmsgs%load_turns_iff & H);
      [|apply load_turns_heap].
    apply bind_Ok in H as (s & Hs%load_fval_iff & H);
      [|apply load_fval_heap].
    apply bind_Ok in H as (ids & Hids%load_fval_iff & [= <-]);
      [|apply load_fval_heap].
    exists ts. by repeat split.
  - intros (c & ts & Hc & Hts & Hr & Hmsgs & Hs & Hids & E1 & E2 & E3 & E4 & E5).
    exists c. split; [by apply read_conv_iff|].
    apply bind_Ok; [apply load_fval_heap|].
    exists (roles v). split; [by apply load_fval_iff|].
    apply bind_Ok; [apply read_msgs_heap|].
    exists ts. split; [by apply read_msgs_iff|].
    apply bind_Ok; [apply load_turns_heap|].
    exists (messages v). split; [by apply load_turns_iff|].
    apply bind_Ok; [apply load_fval_heap|].
    exists (stop_str v). split; [by apply load_fval_iff|].
    apply bind_Ok; [apply load_fval_heap|].
    exists (stop_token_ids v). split; [by apply load_fval_iff|].
    cbn [ret fst]. destruct v; cbn in *. by subst.
Qed.

Lemma loads_typed h a v : loads h a v -> conv_typed h a.
Proof.
  intros (c & ts & Hc & Hts & Hr & Hmsgs & Hs & Hids & _).
  exists c, ts. repeat split; try done.
  - clear Hts. induction Hmsgs as [|t x ts xs Ht _ IH]; constructor; [|done].
    by exists (fst x), (snd x).
  - destruct (o_roles c); constructor; [|constructor].
    destruct Hr as (xs & ? & _). by exists xs.
  - destruct (o_stop_str c); constructor; [|constructor].
    destruct Hs as (xs & ? & _). by exists xs.
  - destruct (o_stop_token_ids c); constructor; [|constructor].
    destruct Hids as (xs & ? & _). by exists xs.
Qed.

(** ** [deepcopy] builds a copy in new locations *)

Section Copy.

Variable h0 : heap.

Lemma copy_rel_mono (memo memo' : memo_t) o o' :
  memo ⊆ memo' -> copy_rel memo o o' -> copy_rel memo' o o'.
Proof.
  intros Hsub. destruct o as [c|ts|r m|xs]; cbn [copy_rel]; try done.
  intros (ts' & -> & HF). exists ts'. split; [done|].
  eapply Forall2_impl; [exact HF|]. intros t t' Ht.
  exact (lookup_weaken _ _ _ _ Ht Hsub).
Qed.

Lemma fval_rel_mono (memo memo' : memo_t) v v' :
  memo ⊆ memo' -> fval_rel memo v v' -> fval_rel memo' v v'.
Proof.
  intros Hsub. destruct v as [a|xs|l]; cbn [fval_rel]; try done.
  intros (l' & -> & Hl). exists l'. split; [done|].
  exact (lookup_weaken _ _ _ _ Hl Hsub).
Qed.

Lemma copy_inv_start : copy_inv h0 ∅ h0.
Proof.
  split; [|split].
  - exists []. by rewrite app_nil_r.
  - intros l o Hl Ho%lookup_lt_Some. lia.
  - intros l l' E. by rewrite lookup_empty in E.
Qed.

Lemma copy_inv_length memo h : copy_inv h0 memo h -> length h0 <= length h.
Proof. intros ([k ->] & _). rewrite length_app. lia. Qed.

Lemma copy_inv_old memo h l o :
  copy_inv h0 memo h -> h0 !! l = Some o -> h !! l = Some o.
Proof. intros ([k ->] & _) E. by apply lookup_app_l_Some. Qed.

Lemma copy_inv_alloc memo h o :
  copy_inv h0 memo h ->
  Forall (fun r => length h0 <= r < S (length h)) (obj_refs o) ->
  copy_inv h0 memo (h ++ [o]).
Proof.
  intros ([k ->] & Hcl & Hm) Ho. split; [|split].
  - exists (k ++ [o]). by rewrite app_assoc.
  - intros l o1 Hl [Hin|[_ Hin]]%lookup_app_Some.
    + eapply Forall_impl; [by eapply Hcl|]. intros r Hr. cbn beta in Hr.
      rewrite (length_app (h0 ++ k)). lia.
    + apply list_lookup_singleton_Some in Hin as [_ <-].
      eapply Forall_impl; [exact Ho|]. intros r Hr. cbn beta in Hr.
      rewrite (length_app (h0 ++ k)). cbn [length]. lia.
  - intros l l' Hll.
    destruct (Hm l l' Hll) as (Hr & o1 & o1' & H1 & H2 & H3).
    split; [rewrite (length_app (h0 ++ k)); lia|].
    exists o1, o1'. split; [done|]. split; [|done]. by apply lookup_app_l_Some.
Qed.

Lemma copy_inv_insert (memo : memo_t) h l l' o o' :
  copy_inv h0 memo h -> memo !! l = None -> h0 !! l = Some o ->
  h !! l' = Some o' -> length h0 <= l' ->
  copy_rel (<[l := l']> memo) o o' ->
  copy_inv h0 (<[l := l']> memo) h.
Proof.
  intros (Hk & Hcl & Hm) Hnone H0 Hl' Hge Hrel. split; [done|]. split; [done|].
  intros k k' [[<- <-]|[Hne Hkk]]%lookup_insert_Some.
  - split; [split; [done | by eapply lookup_lt_Some]|]. by exists o, o'.
  - destruct (Hm k k' Hkk) as (Hr & o1 & o1' & ? & ? & ?).
    split; [done|]. exists o1, o1'. repeat split; try done.
    eapply copy_rel_mono; [|done]. by apply insert_subseteq.
Qed.

Lemma copy_inv_range (memo : memo_t) h ts ts' :
  copy_inv h0 memo h -> Forall2 (fun t t' => memo !! t = Some t') ts ts' ->
  Forall (fun r => length h0 <= r < length h) ts'.
Proof.
  intros (_ & _ & Hm). induction 1 as [|t t' ts ts' Ht _ IH]; constructor;
    [|done]. by destruct (Hm t t' Ht).
Qed.

Lemma deepcopy_turn_spec (memo : memo_t) h t :
  copy_inv h0 memo h -> turn_typed h0 t ->
  exists t' memo' h',
    deepcopy_turn memo t h = (Ok (t', memo'), h')
    /\ copy_inv h0 memo' h' /\ memo ⊆ memo' /\ memo' !! t = Some t'
    /\ (forall l, l <> t -> memo' !! l = memo !! l).
Proof.
  intros Hi (r & m & Ht). unfold deepcopy_turn.
  destruct (memo !! t) as [t'|] eqn:E.
  - by exists t', memo, h.
  - pose proof (copy_inv_old _ _ _ _ Hi Ht) as Hht.
    exists (length h), (<[t := length h]> memo), (h ++ [OTurn r m]).
    split; [unfold bind, read_turn, bind, read; by rewrite Hht|].
    split; [|split; [by apply insert_subseteq|split]].
    + apply copy_inv_insert with (o := OTurn r m) (o' := OTurn r m);
        try done.
      * apply copy_inv_alloc; [done | constructor].
      * by apply list_lookup_middle.
      * by eapply copy_inv_length.
    + apply lookup_insert_eq.
    + intros l Hl. by rewrite lookup_insert_ne.
Qed.

Lemma deepcopy_turns_spec (memo : memo_t) h ts :
  copy_inv h0 memo h -> Forall (turn_typed h0) ts ->
  exists ts' memo' h',
    deepcopy_turns memo ts h = (Ok (ts', memo'), h')
    /\ copy_inv h0 memo' h' /\ memo ⊆ memo'
    /\ Forall2 (fun t t' => memo' !! t = Some t') ts ts'
    /\ (forall l, l ∉ ts -> memo' !! l = memo !! l).
Proof.
  intros Hi Hts. revert memo h Hi.
  induction Hts as [|t ts Ht _ IH]; intros memo h Hi.
  - exists [], memo, h. split; [done|]. split; [done|]. split; [done|].
    split; [constructor | done].
  - destruct (deepcopy_turn_spec memo h t Hi Ht)
      as (t' & memo1 & h1 & E1 & Hi1 & Hsub1 & Hl1 & Hne1).
    destruct (IH memo1 h1 Hi1)
      as (ts' & memo2 & h2 & E2 & Hi2 & Hsub2 & HF2 & Hne2).
    exists (t' :: ts'), memo2, h2.
    split; [cbn [deepcopy_turns]; unfold bind; rewrite E1; cbn [fst snd];
            by rewrite E2|].
    split; [done|]. split; [by trans memo1|]. split.
    + constructor; [exact (lookup_weaken _ _ _ _ Hl1 Hsub2) | done].
    + intros l [Hlt Hlts]%not_elem_of_cons. by rewrite Hne2, Hne1.
Qed.

Lemma deepcopy_msgs_spec (memo : memo_t) h m ts :
  copy_inv h0 memo h -> h0 !! m = Some (OMsgs ts) ->
  Forall (turn_typed h0) ts ->
  exists m' memo' h',
    deepcopy_msgs memo m h = (Ok (m', memo'), h')
    /\ copy_inv h0 memo' h' /\ memo ⊆ memo' /\ memo' !! m = Some m'.
Proof.
  intros Hi Hm Hts. unfold deepcopy_msgs.
  destruct (memo !! m) as [m'|] eqn:E.
  - by exists m', memo, h.
  - pose proof (copy_inv_old _ _ _ _ Hi Hm) as Hhm.
    destruct (deepcopy_turns_spec memo h ts Hi Hts)
      as (ts' & memo1 & h1 & E1 & Hi1 & Hsub1 & HF1 & Hne1).
    assert (Hfresh : memo1 !! m = None).
    { rewrite Hne1; [done|]. intros Hin. rewrite Forall_forall in Hts.
      destruct (Hts m Hin) as (r & msg & Ht). congruence. }
    exists (length h1), (<[m := length h1]> memo1), (h1 ++ [OMsgs ts']).
    split; [unfold bind, read_msgs, bind, read, ret; rewrite Hhm;
            cbv beta iota; by rewrite E1|].
    split; [|split; [trans memo1; [done | by apply insert_subseteq]
                    | apply lookup_insert_eq]].
    apply copy_inv_insert with (o := OMsgs ts) (o' := OMsgs ts'); try done.
    + apply copy_inv_alloc; [done|]. cbn [obj_refs].
      eapply Forall_impl; [by eapply copy_inv_range|].
      intros r Hr. cbn beta in Hr. lia.
    + by apply list_lookup_middle.
    + by eapply copy_inv_length.
    + exists ts'. split; [done|]. eapply Forall2_impl; [exact HF1|].
      intros t t' Ht.
      exact (lookup_weaken _ _ _ _ Ht (insert_subseteq _ _ _ Hfresh)).
Qed.

Lemma deepcopy_fval_spec (memo : memo_t) h v :
  copy_inv h0 memo h -> Forall (list_typed h0) (fval_refs v) ->
  exists v' memo' h',
    deepcopy_fval memo v h = (Ok (v', memo'), h')
    /\ copy_inv h0 memo' h' /\ memo ⊆ memo' /\ fval_rel memo' v v'.
Proof.
  intros Hi Hv. destruct v as [a|xs|l]; cbn [deepcopy_fval].
  - by exists (FAtom a), memo, h.
  - by exists (FTuple xs), memo, h.
  - apply Forall_cons in Hv as [(xs & Hl) _].
    destruct (memo !! l) as [l'|] eqn:E.
    + exists (FRef l'), memo, h. split; [done|]. split; [done|].
      split; [done|]. by exists l'.
    + pose proof (copy_inv_old _ _ _ _ Hi Hl) as Hhl.
      exists (FRef (length h)), (<[l := length h]> memo), (h ++ [OList xs]).
      split; [unfold bind, read_list, bind, read; by rewrite Hhl|].
      split; [|split; [by apply insert_subseteq|]].
      * apply copy_inv_insert with (o := OList xs) (o' := OList xs);
          try done.
        -- apply copy_inv_alloc; [done | constructor].
        -- by apply list_lookup_middle.
        -- by eapply copy_inv_length.
      * exists (length h). split; [done | apply lookup_insert_eq].
Qed.

End Copy.

Section CopyValue.

Variable h0 : heap.

Lemma fval_rel_range (memo : memo_t) h v v' :
  copy_inv h0 memo h -> fval_rel memo v v' ->
  Forall (fun r => length h0 <= r < length h) (fval_refs v').
Proof.
  intros (_ & _ & Hm). destruct v as [a|xs|l]; cbn [fval_rel].
  - intros ->. constructor.
  - intros ->. constructor.
  - intros (l' & -> & Hl). constructor; [|constructor].
    by destruct (Hm l l' Hl).
Qed.

Lemma fval_loads_copy (memo : memo_t) h v v' r :
  copy_inv h0 memo h -> fval_rel memo v v' ->
  fval_loads h0 v r -> fval_loads h v' r.
Proof.
  intros (_ & _ & Hm). destruct v as [a|xs|l]; cbn [fval_rel fval_loads].
  - by intros ->.
  - by intros ->.
  - intros (l' & -> & Hl) (xs & Hxs & ->).
    destruct (Hm l l' Hl) as (_ & o & o' & Ho & Ho' & Hrel).
    rewrite Hxs in Ho. injection Ho as <-. cbn [copy_rel] in Hrel. subst o'.
    by exists xs.
Qed.

Lemma turns_loads_copy (memo : memo_t) h ts ts' xs :
  copy_inv h0 memo h -> Forall2 (fun t t' => memo !! t = Some t') ts ts' ->
  Forall2 (turn_loads h0) ts xs -> Forall2 (turn_loads h) ts' xs.
Proof.
  intros (_ & _ & Hm) Hmemo. revert xs.
  induction Hmemo as [|t t' ts ts' Ht _ IH]; intros xs Hxs.
  - apply Forall2_nil_inv_l in Hxs as ->. constructor.
  - apply Forall2_cons_inv_l in Hxs as (x & xs' & Hx & Hxs' & ->).
    constructor; [|by apply IH].
    destruct (Hm t t' Ht) as (_ & o & o' & Ho & Ho' & Hrel).
    unfold turn_loads in *. rewrite Hx in Ho. injection Ho as <-.
    cbn [copy_rel] in Hrel. by subst o'.
Qed.

(** Copying a conversation succeeds, allocates the copy in new locations
    and gives it the value of the original. *)
Lemma copy_spec a v :
  loads h0 a v ->
  exists b h1 memo,
    copy a h0 = (Ok b, h1) /\ copy_inv h0 memo h1
    /\ length h0 <= b < length h1 /\ loads h1 b v.
Proof.
  intros Hv. destruct (loads_typed _ _ _ Hv) as (c & ts & Hc & Hm & HT & HR & HS & HI).
  destruct Hv as (c0 & ts0 & Hc0 & Hm0 & Hr & Hmsgs & Hs & Hids & Escalars).
  rewrite Hc in Hc0. injection Hc0 as <-.
  rewrite Hm in Hm0. injection Hm0 as <-.
  destruct (deepcopy_fval_spec h0 ∅ h0 (o_roles c) (copy_inv_start h0) HR)
    as (r' & memo1 & h1 & E1 & Hi1 & Hsub1 & Hrel1).
  destruct (deepcopy_msgs_spec h0 memo1 h1 (o_messages c) ts Hi1 Hm HT)
    as (m' & memo2 & h2 & E2 & Hi2 & Hsub2 & Hl2).
  destruct (deepcopy_fval_spec h0 memo2 h2 (o_stop_str c) Hi2 HS)
    as (s' & memo3 & h3 & E3 & Hi3 & Hsub3 & Hrel3).
  destruct (deepcopy_fval_spec h0 memo3 h3 (o_stop_token_ids c) Hi3 HI)
    as (i' & memo4 & h4 & E4 & Hi4 & Hsub4 & Hrel4).
  assert (Hrel1' : fval_rel memo4 (o_roles c) r').
  { eapply fval_rel_mono; [|exact Hrel1]. trans memo2; [done|].
    by trans memo3. }
  assert (Hrel3' : fval_rel memo4 (o_stop_str c) s')
    by (eapply fval_rel_mono; [|exact Hrel3]; done).
  assert (Hl2' : memo4 !! o_messages c = Some m').
  { eapply lookup_weaken; [exact Hl2|]. by trans memo3. }
  set (c' := mkConvObj (o_system c) r' m' (o_offset c) (o_sep_style c)
               (o_sep c) (o_sep2 c) s' i').
  assert (Hi5 : copy_inv h0 memo4 (h4 ++ [OConv c'])).
  { apply copy_inv_alloc; [done|]. cbn [obj_refs c' o_messages o_roles
      o_stop_str o_stop_token_ids].
    eapply Forall_impl with (P := fun r => length h0 <= r < length h4);
      [|intros x Hx; cbn beta in Hx; lia].
    apply Forall_cons. split.
    { destruct Hi4 as (_ & _ & Hmemo). by destruct (Hmemo _ _ Hl2'). }
    rewrite !Forall_app. split; [by eapply fval_rel_range|].
    split; by eapply fval_rel_range. }
  exists (length h4), (h4 ++ [OConv c']), memo4.
  split.
  { unfold copy, bind, read_conv, bind, read, ret. rewrite Hc.
    cbv beta iota. rewrite E1. cbn [fst snd]. rewrite E2. cbn [fst snd].
    rewrite E3. cbn [fst snd]. by rewrite E4. }
  split; [done|]. split.
  { split; [by eapply copy_inv_length|]. rewrite length_app. cbn. lia. }
  destruct Hi5 as (Hk & Hcl & Hmemo).
  destruct (Hmemo _ _ Hl2') as (_ & o & o' & Ho & Ho' & Hrel).
  rewrite Hm in Ho. injection Ho as <-.
  destruct Hrel as (ts' & -> & Hts').
  exists c', ts'. split; [by apply list_lookup_middle|].
  split; [done|].
  split; [by eapply fval_loads_copy|].
  split; [by eapply turns_loads_copy|].
  split; [by eapply fval_loads_copy|].
  split; [by eapply fval_loads_copy|].
  done.
Qed.

End CopyValue.

(** ** The old and the new part of the store after a copy *)

Lemma agree_take (h0 h : heap) :
  agree (fun l => l < length h0) h0 h -> take (length h0) h = h0.
Proof.
  intros Hag. apply list_eq. intros i.
  destruct (decide (i < length h0)) as [Hi|Hi].
  - rewrite lookup_take_lt by done. by apply Hag.
  - rewrite lookup_take_ge by lia. symmetry. apply lookup_ge_None. lia.
Qed.

Lemma heap_wf_closed h0 : heap_wf h0 -> closed (fun l => l < length h0) h0.
Proof.
  intros Hwf l o _ Ho. unfold heap_wf in Hwf. rewrite Forall_forall in Hwf.
  apply Hwf. by eapply list_elem_of_lookup_2.
Qed.

Section OldNew.

Variables (h0 h1 : heap) (memo : memo_t).
Hypothesis Hinv : copy_inv h0 memo h1.

Lemma copy_agree_old : agree (fun l => l < length h0) h0 h1.
Proof.
  destruct Hinv as ([k ->] & _). intros l Hl. by rewrite lookup_app_l.
Qed.

Lemma copy_closed_new : closed (fun l => length h0 <= l < length h1) h1.
Proof. destruct Hinv as (_ & Hcl & _). intros l o [Hl _] Ho. by eapply Hcl. Qed.

(** Seen from the new objects, the old part is a frame. *)
Lemma copy_separated_old :
  separated (fun l => l < length h0) h1 h1.
Proof.
  split; [|split; [|done]].
  - intros l Hl. pose proof (copy_inv_length _ _ _ Hinv). lia.
  - destruct Hinv as (_ & Hcl & _). intros l o Hl Ho.
    eapply Forall_impl; [eapply (Hcl l); [lia | done]|].
    intros r Hr. cbn beta in Hr. lia.
Qed.

(** Seen from the old objects, the new part is a frame. *)
Lemma copy_separated_new :
  heap_wf h0 -> separated (fun l => length h0 <= l < length h1) h1 h1.
Proof.
  intros Hwf. split; [|split; [|done]].
  - intros l Hl. lia.
  - intros l o Hl Ho. pose proof (lookup_lt_Some _ _ _ Ho) as Hlt.
    assert (Hold : l < length h0) by lia.
    rewrite copy_agree_old in Ho by done.
    eapply Forall_impl; [by eapply (heap_wf_closed h0 Hwf l)|].
    intros r Hr. cbn beta in Hr. lia.
Qed.

End OldNew.

Lemma get_prompt_at_value a h v :
  fst (load a h) = Ok v -> fst (get_prompt_at a h) = get_prompt v.
Proof. intros Hl. by rewrite (get_prompt_at_load a h v Hl). Qed.

(** ** Cloning *)

(** C6. [copy] gives an independent conversation.  In a store without
    dangling references, copying a conversation [a] of value [v] succeeds
    and returns a new reference [b] to a conversation of the same value,
    leaving the old objects as they were.  After any sequence of mutations
    through [b] (append_message, assignment to an attribute, to an entry of
    the history or to an item of a turn or of a list attribute, each
    assigned value being built by the assignment) every old object is
    unchanged, [a] still has the value [v] and assembles to the
    same prompt; after any sequence of mutations through [a], [b] still has
    the value [v] and assembles to the prompt of [v]. *)
Theorem copy_independent h0 a v :
  heap_wf h0 -> fst (load a h0) = Ok v ->
  exists b h1,
    copy a h0 = (Ok b, h1)
    /\ length h0 <= b /\ take (length h0) h1 = h0
    /\ fst (load b h1) = Ok v
    /\ forall ms,
         (take (length h0) (run_muts b ms h1) = h0
          /\ fst (load a (run_muts b ms h1)) = Ok v
          /\ fst (get_prompt_at a (run_muts b ms h1)) = get_prompt v)
         /\ (fst (load b (run_muts a ms h1)) = Ok v
             /\ fst (get_prompt_at b (run_muts a ms h1)) = get_prompt v).
Proof.
  intros Hwf Hv.
  assert (Ha : a < length h0).
  { apply load_iff in Hv as (c & ts & Hc%lookup_lt_Some & _). done. }
  destruct (copy_spec h0 a v (proj1 (load_iff _ _ _) Hv))
    as (b & h1 & memo & Ecopy & Hinv & Hb & Hbv%load_iff).
  exists b, h1. split; [done|]. split; [lia|].
  split; [apply agree_take, (copy_agree_old h0 h1 memo Hinv)|].
  split; [done|]. intros ms. split.
  - pose proof (frame_run_muts (fun l => l < length h0) h1 b ms h1) as Hsep.
    destruct Hsep as (_ & _ & Hag);
      [lia | by apply (copy_separated_old h0 h1 memo)|].
    assert (Hag0 : agree (fun l => l < length h0) h0 (run_muts b ms h1)).
    { intros l Hl. rewrite (Hag l Hl).
      by apply (copy_agree_old h0 h1 memo Hinv). }
    assert (Hload : fst (load a (run_muts b ms h1)) = Ok v).
    { destruct (same_load _ _ _ Hag0 a (heap_wf_closed h0 Hwf) Ha)
        as (E & _). by rewrite E. }
    split; [by apply agree_take|]. split; [done|].
    by apply get_prompt_at_value.
  - pose proof (frame_run_muts (fun l => length h0 <= l < length h1)
                  h1 a ms h1) as Hsep.
    destruct Hsep as (_ & _ & Hag);
      [lia | by apply (copy_separated_new h0 h1 memo)|].
    assert (Hload : fst (load b (run_muts a ms h1)) = Ok v).
    { destruct (same_load _ _ _ Hag b (copy_closed_new h0 h1 memo Hinv) Hb)
        as (E & _). by rewrite E. }
    split; [done|]. by apply get_prompt_at_value.
Qed.

Lemma copy_independent_witness :
  exists b h1,
    copy 5 dialogue_heap = (Ok b, h1)
    /\ length dialogue_heap <= b /\ take (length dialogue_heap) h1 = dialogue_heap
    /\ fst (load b h1) = Ok dialogue_value
    /\ forall ms,
         (take (length dialogue_heap) (run_muts b ms h1) = dialogue_heap
          /\ fst (load 5 (run_muts b ms h1)) = Ok dialogue_value
          /\ fst (get_prompt_at 5 (run_muts b ms h1))
             = get_prompt dialogue_value)
         /\ (fst (load b (run_muts 5 ms h1)) = Ok dialogue_value
             /\ fst (get_prompt_at b (run_muts 5 ms h1))
                = get_prompt dialogue_value).
Proof.
  apply (copy_independent dialogue_heap 5 dialogue_value).
  - apply (bool_decide_unpack _). vm_compute. reflexivity.
  - vm_compute. reflexivity.
Defined.

(** ** The catalog *)

Lemma module_heap_wf : heap_wf module_heap.
Proof. apply (bool_decide_unpack _). vm_compute. reflexivity. Qed.

Lemma dict_get_templates name :
  dict_get conv_templates name
  = if decide (name = str "plain") then Some conv_llava_plain
    else if decide (name = str "v1") then Some conv_vicuna_v1 else None.
Proof. reflexivity. Qed.

Lemma registered_cases name p :
  dict_get conv_templates name = Some p ->
  (name = str "plain" /\ p = conv_llava_plain
   /\ fst (load p module_heap) = Ok plain_value)
  \/ (name = str "v1" /\ p = conv_vicuna_v1
      /\ fst (load p module_heap) = Ok v1_value).
Proof.
  rewrite dict_get_templates. repeat case_decide; intros [= <-]; auto.
Qed.

Lemma registered_value name p :
  dict_get conv_templates name = Some p ->
  p < length module_heap /\ exists v, fst (load p module_heap) = Ok v.
Proof.
  intros [(_ & -> & Hv)|(_ & -> & Hv)]%registered_cases;
    (split; [unfold conv_llava_plain, conv_vicuna_v1; cbn; lia | eauto]).
Qed.

(** A copy keeps a separated region separated. *)
Lemma copy_inv_separated F href h h1 (memo : memo_t) :
  copy_inv h memo h1 -> separated F href h -> separated F href h1.
Proof.
  intros Hinv (Hb & Hout & Hag).
  pose proof (copy_inv_length _ _ _ Hinv) as Hlen.
  pose proof (copy_agree_old _ _ _ Hinv) as Hold.
  split; [|split].
  - intros l Hl. specialize (Hb l Hl). lia.
  - intros l o Hl Ho. destruct (decide (l < length h)) as [Hlt|Hge].
    + rewrite Hold in Ho by done. by apply (Hout l).
    + destruct Hinv as (_ & Hcl & _).
      eapply Forall_impl; [eapply (Hcl l); [lia | done]|].
      intros r Hr HF. cbn beta in Hr. specialize (Hb r HF). lia.
  - intros l Hl. rewrite Hold by by apply Hb. by apply Hag.
Qed.

(** In every store a client can reach the prototypes are as registered and
    no other object refers to them or to their lists. *)
Lemma reachable_separated h :
  reachable h -> separated (fun l => l < length module_heap) module_heap h.
Proof.
  induction 1 as [|name h Hr IH|x mu h Hr IH Hx].
  - split; [done|]. split; [|done].
    intros l o Hl Ho%lookup_lt_Some. lia.
  - unfold get_conv_template.
    destruct (dict_get conv_templates name) as [p|] eqn:E; [|done].
    destruct (registered_value name p E) as (Hp & v & Hv).
    destruct IH as (Hb & Hout & Hag).
    destruct (same_load _ _ _ Hag p (heap_wf_closed _ module_heap_wf) Hp)
      as (El & _).
    rewrite Hv in El. apply load_iff in El.
    destruct (copy_spec h p v El) as (b & h1 & memo & Ecopy & Hinv & _).
    rewrite Ecopy. cbn [snd]. by eapply copy_inv_separated.
  - pose proof (frame_exec (fun l => l < length module_heap) module_heap
                  mu x ltac:(cbn beta; lia) h IH) as He.
    by destruct (exec mu x h) as [[[]|e] h'].
Qed.






(** * Further properties of the module *)

(** ** [append_message] *)

Section AppendMessage.

Variables (h : heap) (m : loc) (ts : list loc) (role : pystr)
          (message : option pystr).
Hypothesis Hm : h !! m = Some (OMsgs ts).

Let h' : heap :=
  <[m := OMsgs (ts ++ [length h])]> (h ++ [OTurn role message]).

Lemma append_old l o :
  h !! l = Some o -> l <> m -> h' !! l = Some o.
Proof.
  intros Ho Hl. unfold h'. rewrite list_lookup_insert_ne by done.
  by apply lookup_app_l_Some.
Qed.

Lemma append_new_turn : h' !! length h = Some (OTurn role message).
Proof.
  unfold h'. pose proof (lookup_lt_Some _ _ _ Hm).
  rewrite list_lookup_insert_ne by lia. by apply list_lookup_middle.
Qed.

Lemma append_list : h' !! m = Some (OMsgs (ts ++ [length h])).
Proof.
  unfold h'. apply list_lookup_insert_eq. rewrite length_app.
  pose proof (lookup_lt_Some _ _ _ Hm). lia.
Qed.

Lemma append_fval_loads v r : fval_loads h v r -> fval_loads h' v r.
Proof.
  destruct v as [a|xs|l]; cbn [fval_loads]; try done.
  intros (xs & Hl & ->). exists xs. split; [|done].
  apply append_old; [done|]. intros ->. congruence.
Qed.

Lemma append_turns_loads us xs :
  Forall2 (turn_loads h) us xs -> Forall2 (turn_loads h') us xs.
Proof.
  induction 1 as [|t x us xs Ht _ IH]; constructor; [|done].
  unfold turn_loads in *. apply append_old; [done|]. intros ->. congruence.
Qed.

End AppendMessage.

Lemma append_message_loads h self v role message :
  loads h self v ->
  exists c ts,
    h !! self = Some (OConv c) /\ h !! o_messages c = Some (OMsgs ts)
    /\ append_message self role message h
       = (Ok tt, <[o_messages c := OMsgs (ts ++ [length h])]>
                   (h ++ [OTurn role message]))
    /\ loads (<[o_messages c := OMsgs (ts ++ [length h])]>
                (h ++ [OTurn role message]))
         self (with_messages v (messages v ++ [(role, message)])).
Proof.
  intros (c & ts & Hc & Hm & Hr & Hmsgs & Hs & Hids & Escalars).
  exists c, ts. split; [done|]. split; [done|]. split.
  { unfold append_message, bind, read_conv, read_msgs, bind, read, ret.
    rewrite Hc. cbv beta iota. by rewrite Hm. }
  exists c, (ts ++ [length h]).
  split; [apply append_old; [done|]; intros E; rewrite E in Hc; congruence|].
  split; [by apply append_list|].
  split; [by apply append_fval_loads|].
  split.
  { cbn [with_messages messages]. apply Forall2_app.
    - by apply append_turns_loads.
    - constructor; [|constructor]. by apply append_new_turn. }
  split; [by apply append_fval_loads|].
  split; [by apply append_fval_loads|]. done.
Qed.

(** X1. On a conversation of value [v], [append_message] does not raise; it
    allocates one object, rewrites only the conversation's own list of
    turns, and leaves the conversation with the value [v] whose history has
    the turn added at the end, every other field being unchanged. *)
Theorem append_message_spec h self v role message :
  fst (load self h) = Ok v ->
  exists c h',
    h !! self = Some (OConv c)
    /\ append_message self role message h = (Ok tt, h')
    /\ length h' = S (length h)
    /\ (forall l, l < length h -> l <> o_messages c -> h' !! l = h !! l)
    /\ fst (load self h')
       = Ok (with_messages v (messages v ++ [(role, message)])).
Proof.
  intros Hv%load_iff.
  destruct (append_message_loads h self v role message Hv)
    as (c & ts & Hc & Hm & Eapp & Hv').
  exists c, (<[o_messages c := OMsgs (ts ++ [length h])]>
               (h ++ [OTurn role message])).
  split; [done|]. split; [done|]. split.
  { rewrite length_insert, length_app. cbn. lia. }
  split; [|by apply load_iff].
  intros l Hl Hne. rewrite list_lookup_insert_ne by done.
  by rewrite lookup_app_l.
Qed.

Lemma append_message_spec_witness :
  exists c h',
    dialogue_heap !! 5 = Some (OConv c)
    /\ append_message 5 (str "USER") (Some (str "Why?")) dialogue_heap
       = (Ok tt, h')
    /\ length h' = S (length dialogue_heap)
    /\ (forall l, l < length dialogue_heap -> l <> o_messages c ->
        h' !! l = dialogue_heap !! l)
    /\ fst (load 5 h')
       = Ok (with_messages dialogue_value
               (messages dialogue_value
                ++ [(str "USER", Some (str "Why?"))])).
Proof.
  apply (append_message_spec dialogue_heap 5 dialogue_value).
  vm_compute. reflexivity.
Defined.

Lemma run_appends_loads self ts h v :
  loads h self v ->
  loads (run_muts self (append_muts ts) h) self
    (with_messages v (messages v ++ ts)).
Proof.
  revert h v. induction ts as [|t ts IH]; intros h v Hv.
  - cbn [append_muts map run_muts]. rewrite app_nil_r. by destruct v.
  - cbn [append_muts map run_muts exec].
    destruct (append_message_loads h self v (fst t) (snd t) Hv)
      as (c & us & _ & _ & Eapp & Hv').
    rewrite Eapp. cbn [snd]. apply IH in Hv'.
    cbn [with_messages messages system roles offset sep_style sep sep2
           stop_str stop_token_ids] in Hv'.
    rewrite <- app_assoc in Hv'. cbn [app] in Hv'. by destruct t.
Qed.

(** X2. Successive [append_message] calls add their turns to the end of the
    history in the order of the calls, keep duplicates, and change no other
    field. *)
Theorem append_messages_in_order h self v ts :
  fst (load self h) = Ok v ->
  fst (load self (run_muts self (append_muts ts) h))
  = Ok (with_messages v (messages v ++ ts)).
Proof. intros Hv%load_iff. by apply load_iff, run_appends_loads. Qed.

Lemma append_messages_in_order_witness :
  fst (load conv_vicuna_v1
         (run_muts conv_vicuna_v1
            (append_muts [(str "USER", Some (str "Hi"));
                          (str "USER", Some (str "Hi"));
                          (str "ASSISTANT", None)])
            module_heap))
  = Ok (with_messages v1_value
          (messages v1_value
           ++ [(str "USER", Some (str "Hi")); (str "USER", Some (str "Hi"));
               (str "ASSISTANT", None)])).
Proof.
  apply (append_messages_in_order module_heap conv_vicuna_v1 v1_value).
  vm_compute. reflexivity.
Defined.

(** ** How the prompt grows with the history *)

Lemma two_assemble_app c sepb t :
  two_assemble (with_messages c (messages c ++ [t])) sepb
  = two_assemble c sepb ++ two_turn (sep c) sepb (length (messages c)) t.
Proof.
  unfold two_assemble. cbn [with_messages system sep messages].
  rewrite turns_text_app. cbn [turns_text].
  by rewrite app_nil_r, <- app_assoc.
Qed.

Lemma default_turns_grow style sepa msgs i :
  turns_text (default_turn style sepa (S (i + length msgs))) i msgs
  = turns_text (default_turn style sepa (i + length msgs)) i msgs
    ++ chatml_glue style msgs.
Proof.
  revert i. induction msgs as [|t msgs IH]; intros i.
  - by destruct style.
  - cbn [turns_text length].
    replace (i + S (length msgs)) with (S i + length msgs) by lia.
    rewrite IH, <- app_assoc. destruct msgs as [|t' msgs].
    + destruct t as [r [[|ch x]|]], style; cbn; try done;
        repeat case_decide; try lia;
        rewrite <- ?app_assoc, ?app_nil_r; cbn [app];
        by rewrite <- ?app_assoc.
    + assert (Hglue : chatml_glue style (t :: t' :: msgs)
                      = chatml_glue style (t' :: msgs)) by by destruct style.
      rewrite Hglue. f_equal.
      destruct t as [r [[|ch x]|]], style; cbn [default_turn
        spec_default_turn fst snd length]; try done;
        repeat case_decide; try lia; done.
Qed.

Lemma default_body_app c t :
  default_body (with_messages c (messages c ++ [t]))
  = default_body c ++ chatml_glue (sep_style c) (messages c)
    ++ default_turn (sep_style c) (sep c) (S (length (messages c)))
         (length (messages c)) t.
Proof.
  unfold default_body, default_preamble.
  cbn [with_messages system sep sep_style messages].
  rewrite length_app. cbn [length]. rewrite Nat.add_1_r.
  rewrite turns_text_app. cbn [turns_text].
  rewrite (default_turns_grow _ _ (messages c) 0).
  by rewrite app_nil_r, <- !app_assoc.
Qed.

(** X3. Under the two-separator style or its alias with both separators
    set, appending a turn extends the assembled prompt: the new prompt is
    the old one followed by the text of the new turn at its index, the old
    prompt being left as it was. *)
Theorem two_sep_prompt_grows h self v sepb role message :
  fst (load self h) = Ok v ->
  sep_style v = TWO \/ sep_style v = VICUNA -> sep2 v = Some sepb ->
  exists p,
    fst (get_prompt_at self h) = Ok p
    /\ fst (get_prompt_at self (snd (append_message self role message h)))
       = Ok (p ++ two_turn (sep v) sepb (length (messages v))
                    (role, message)).
Proof.
  intros Hv Hst H2. exists (two_assemble v sepb).
  rewrite (get_prompt_at_value self h v Hv), (get_prompt_two v sepb Hst H2).
  split; [done|]. apply load_iff in Hv.
  destruct (append_message_loads h self v role message Hv)
    as (c & ts & _ & _ & Eapp & Hv'%load_iff).
  rewrite Eapp. cbn [snd]. rewrite (get_prompt_at_value _ _ _ Hv').
  rewrite (get_prompt_two _ sepb) by done. by rewrite two_assemble_app.
Qed.

Lemma two_sep_prompt_grows_witness :
  exists p,
    fst (get_prompt_at 5 dialogue_heap) = Ok p
    /\ fst (get_prompt_at 5
              (snd (append_message 5 (str "USER") (Some (str "Why?"))
                      dialogue_heap)))
       = Ok (p ++ str "USER: Why?</s>").
Proof.
  apply (two_sep_prompt_grows dialogue_heap 5 dialogue_value (str "</s>")
           (str "USER") (Some (str "Why?")));
    [vm_compute; reflexivity | left; reflexivity | reflexivity].
Defined.

(** X4. On the default path, for every style but plain, appending a turn
    extends the assembled prompt: the new prompt is the old one, followed
    for the markup-delimited style by a newline when the former last turn
    had non-empty content, followed by the text of the new turn as the last
    turn of the history. *)
Theorem default_prompt_grows h self v role message :
  fst (load self h) = Ok v ->
  ~ (sep_style v = TWO \/ sep_style v = VICUNA) -> sep_style v <> PLAIN ->
  exists p,
    fst (get_prompt_at self h) = Ok p
    /\ fst (get_prompt_at self (snd (append_message self role message h)))
       = Ok (p ++ chatml_glue (sep_style v) (messages v)
               ++ default_turn (sep_style v) (sep v)
                    (S (length (messages v))) (length (messages v))
                    (role, message)).
Proof.
  intros Hv Hst Hp. exists (default_body v).
  assert (Hclean : forall c s, sep_style c = sep_style v ->
                               final_cleanup c s = s).
  { intros c s E. unfold final_cleanup. rewrite E.
    by destruct (sep_style v). }
  rewrite (get_prompt_at_value self h v Hv), (get_prompt_default v Hst).
  rewrite loop_result_body, Hclean by done.
  split; [done|]. apply load_iff in Hv.
  destruct (append_message_loads h self v role message Hv)
    as (c & ts & _ & _ & Eapp & Hv'%load_iff).
  rewrite Eapp. cbn [snd]. rewrite (get_prompt_at_value _ _ _ Hv').
  rewrite get_prompt_default by done.
  by rewrite loop_result_body, Hclean, default_body_app.
Qed.

Lemma default_prompt_grows_witness :
  exists p,
    fst (get_prompt_at 2 chatml_heap) = Ok p
    /\ fst (get_prompt_at 2
              (snd (append_message 2 (str "<|im_start|>assistant") None
                      chatml_heap)))
       = Ok (p ++ nl ++ str "<|im_start|>assistant" ++ nl).
Proof.
  apply (default_prompt_grows chatml_heap 2 chatml_one_turn
           (str "<|im_start|>assistant") None);
    [vm_compute; reflexivity | intros [|]; discriminate | discriminate].
Defined.

(** ** [dict] *)

Lemma loads_fields h self v :
  loads h self v <-> exists c, h !! self = Some (OConv c) /\ fields_load h c v.
Proof.
  unfold loads, fields_load. split.
  - intros (c & ts & Hc & H). exists c. split; [done|]. by exists ts.
  - intros (c & Hc & ts & H). by exists c, ts.
Qed.

Lemma load_fval_run h v r : fval_loads h v r -> load_fval v h = (Ok r, h).
Proof.
  intros Hr%load_fval_iff. pose proof (load_fval_heap v h) as Hh.
  destruct (load_fval v h) as [x h1]. cbn [fst snd] in *. by subst.
Qed.

Lemma load_turns_run h ts xs :
  Forall2 (turn_loads h) ts xs -> load_turns ts h = (Ok xs, h).
Proof.
  intros Hr%load_turns_iff. pose proof (load_turns_heap ts h) as Hh.
  destruct (load_turns ts h) as [x h1]. cbn [fst snd] in *. by subst.
Qed.

Lemma read_entry_val h k v r :
  k <> str "messages" -> fval_loads h v r ->
  read_entry (k, v) h = (Ok (k, SVal r), h).
Proof.
  intros Hk Hr. unfold read_entry. cbn [fst snd].
  rewrite decide_False by done. unfold bind. by rewrite (load_fval_run h v r).
Qed.

Lemma read_entry_msgs h m ts xs :
  h !! m = Some (OMsgs ts) -> Forall2 (turn_loads h) ts xs ->
  read_entry (str "messages", FRef m) h = (Ok (str "messages", SMsgs xs), h).
Proof.
  intros Hm Hts. unfold read_entry. cbn [fst snd].
  rewrite decide_True by done.
  unfold bind, read_msgs, bind, read, ret. rewrite Hm. cbv beta iota.
  by rewrite (load_turns_run h ts xs).
Qed.

Lemma read_dict_items h c v :
  fields_load h c v -> read_snapshot (dict_items c) h = (Ok (snapshot_of v), h).
Proof.
  intros (ts & Hm & Hr & Hmsgs & Hs & Hids & E1 & E2 & E3 & E4 & E5).
  unfold dict_items, snapshot_of. cbn [read_snapshot]. unfold bind.
  rewrite (read_entry_val h _ _ (RAtom (AStr (o_system c))))
    by (by vm_compute).
  rewrite (read_entry_val h _ _ (roles v)) by (done || by vm_compute).
  rewrite (read_entry_msgs h _ ts (messages v)) by done.
  rewrite (read_entry_val h _ _ (RAtom (AInt (o_offset c))))
    by (by vm_compute).
  rewrite (read_entry_val h _ _
             (RAtom (AStr (style_name (o_sep_style c))))) by (by vm_compute).
  rewrite (read_entry_val h _ _ (RAtom (AStr (o_sep c)))) by (by vm_compute).
  rewrite (read_entry_val h _ _ (RAtom (opt_atom (o_sep2 c))))
    by (by vm_compute).
  rewrite (read_entry_val h _ _ (stop_str v)) by (done || by vm_compute).
  rewrite (read_entry_val h _ _ (stop_token_ids v))
    by (done || by vm_compute).
  unfold ret. by rewrite E1, E2, E3, E4, E5.
Qed.

Lemma style_name_inj st st' : style_name st = style_name st' -> st = st'.
Proof. destruct st, st'; intros E; try done; by vm_compute in E. Qed.

Lemma snapshot_of_inj v v' : snapshot_of v = snapshot_of v' -> v = v'.
Proof.
  destruct v as [s1 r1 m1 o1 st1 p1 q1 ss1 si1],
           v' as [s2 r2 m2 o2 st2 p2 q2 ss2 si2]. unfold snapshot_of.
  cbn [system roles messages offset sep_style sep sep2 stop_str
         stop_token_ids].
  intros [= -> -> -> -> Est -> E2 -> ->].
  apply style_name_inj in Est as ->.
  assert (q1 = q2) as -> by (destruct q1, q2; cbn in E2; congruence).
  done.
Qed.

Lemma write_conv_fields h self c0 c1 c v :
  h !! self = Some (OConv c0) -> fields_load h c v ->
  fields_load (<[self := OConv c1]> h) c v.
Proof.
  intros Hself (ts & Hm & Hr & Hmsgs & Hs & Hids & Escalars).
  assert (Hold : forall l o, h !! l = Some o -> (forall x, o <> OConv x) ->
                             <[self := OConv c1]> h !! l = Some o).
  { intros l o Ho Hne. rewrite list_lookup_insert_ne; [done|].
    intros <-. rewrite Hself in Ho. injection Ho as <-. by apply (Hne c0). }
  assert (Hfval : forall f r, fval_loads h f r ->
                              fval_loads (<[self := OConv c1]> h) f r).
  { intros [a|xs|l] r; cbn [fval_loads]; try done.
    intros (xs & Hl & ->). exists xs. split; [by apply Hold | done]. }
  exists ts. split; [by apply Hold|]. split; [by apply Hfval|]. split.
  { clear Hm. induction Hmsgs as [|t x us xs Ht _ IH]; constructor; [|done].
    unfold turn_loads in *. by apply Hold. }
  split; [by apply Hfval|]. split; [by apply Hfval | done].
Qed.

(** X5. On a conversation of value [v], [dict] leaves the store as it was
    and returns the nine items "system", "roles", "messages", "offset",
    "sep_style", "sep", "sep2", "stop_str", "stop_token_ids" in that order;
    read at that moment they show the fields of [v], the style by its name;
    and the snapshot loses nothing: conversations with equal snapshots have
    equal values. *)
Theorem dict_snapshot h self v :
  fst (load self h) = Ok v ->
  exists d,
    dict self h = (Ok d, h)
    /\ map fst d
       = [str "system"; str "roles"; str "messages"; str "offset";
          str "sep_style"; str "sep"; str "sep2"; str "stop_str";
          str "stop_token_ids"]
    /\ read_snapshot d h = (Ok (snapshot_of v), h)
    /\ forall v', snapshot_of v' = snapshot_of v -> v' = v.
Proof.
  intros (c & Hc & Hf)%load_iff%loads_fields. exists (dict_items c).
  split; [unfold dict, bind, read_conv, bind, read; by rewrite Hc|].
  split; [done|]. split; [by apply read_dict_items|].
  intros v'. apply snapshot_of_inj.
Qed.

Lemma dict_snapshot_witness :
  exists d,
    dict 5 dialogue_heap = (Ok d, dialogue_heap)
    /\ map fst d
       = [str "system"; str "roles"; str "messages"; str "offset";
          str "sep_style"; str "sep"; str "sep2"; str "stop_str";
          str "stop_token_ids"]
    /\ read_snapshot d dialogue_heap
       = (Ok (snapshot_of dialogue_value), dialogue_heap)
    /\ forall v', snapshot_of v' = snapshot_of dialogue_value ->
                  v' = dialogue_value.
Proof.
  apply (dict_snapshot dialogue_heap 5 dialogue_value).
  vm_compute. reflexivity.
Defined.

(** X6. The dict returned by [dict] refers to the conversation's own list
    of turns: a turn appended to the conversation afterwards is read in the
    dict's "messages" too, whereas an attribute assigned afterwards
    ([system], [offset], [sep_style], [sep], [sep2]) leaves what the dict
    shows as it was. *)
Theorem dict_shares_messages h self v d role message a :
  fst (load self h) = Ok v -> fst (dict self h) = Ok d ->
  fst (read_snapshot d (snd (append_message self role message h)))
  = Ok (snapshot_of (with_messages v (messages v ++ [(role, message)])))
  /\ fst (read_snapshot d (snd (exec (SetAttr a) self h)))
     = Ok (snapshot_of v).
Proof.
  intros Hv%load_iff Hd.
  pose proof Hv as (c & Hc & Hf)%loads_fields.
  assert (d = dict_items c) as ->.
  { unfold dict, bind, read_conv, bind, read in Hd. rewrite Hc in Hd.
    by injection Hd as <-. }
  split.
  - destruct (append_message_loads h self v role message Hv)
      as (c0 & ts & Hc0 & Hm & Eapp & (c' & Hc' & Hf')%loads_fields).
    rewrite Hc in Hc0. injection Hc0 as <-. rewrite Eapp. cbn [snd].
    assert (c' = c) as ->.
    { rewrite (append_old h (o_messages c) ts role message self (OConv c))
        in Hc'; [by injection Hc' as -> | done |].
      intros E. rewrite E in Hc. congruence. }
    by rewrite (read_dict_items _ c _ Hf').
  - cbn [exec]. unfold bind, read_conv, bind, read, write, ret.
    rewrite Hc. cbn [snd].
    by rewrite (read_dict_items _ c v (write_conv_fields _ _ c _ _ _ Hc Hf)).
Qed.

Lemma dict_shares_messages_witness :
  exists d,
    fst (dict conv_vicuna_v1 module_heap) = Ok d
    /\ fst (read_snapshot d module_heap) = Ok (snapshot_of v1_value)
    /\ fst (read_snapshot d
              (snd (append_message conv_vicuna_v1 (str "USER")
                      (Some (str "Hi")) module_heap)))
       = Ok (snapshot_of
               (with_messages v1_value [(str "USER", Some (str "Hi"))])).
Proof.
  eexists. split; [vm_compute; reflexivity|].
  split; [vm_compute; reflexivity|].
  apply (dict_shares_messages module_heap conv_vicuna_v1 v1_value _
           (str "USER") (Some (str "Hi")) (SSystem []));
    vm_compute; reflexivity.
Defined.

(** ** The prototypes and their clones *)

Lemma copy_inv_wf h0 h1 (memo : memo_t) :
  copy_inv h0 memo h1 -> heap_wf h0 -> heap_wf h1.
Proof.
  intros Hinv Hwf. pose proof (copy_inv_length _ _ _ Hinv) as Hlen.
  pose proof (copy_agree_old _ _ _ Hinv) as Hold.
  unfold heap_wf. apply Forall_lookup. intros i o Ho.
  destruct (decide (i < length h0)) as [Hi|Hi].
  - rewrite Hold in Ho by done.
    eapply Forall_impl; [by eapply (heap_wf_closed h0 Hwf i)|].
    intros r Hr. cbn beta in Hr. lia.
  - destruct Hinv as (_ & Hcl & _).
    eapply Forall_impl; [eapply (Hcl i); [lia | done]|].
    intros r Hr. cbn beta in Hr. lia.
Qed.

Lemma reachable_module_objects h l :
  reachable h -> l < length module_heap -> h !! l = module_heap !! l.
Proof. intros (_ & _ & Hag)%reachable_separated Hl. by apply Hag. Qed.

(** ** No operation leaves a dangling reference *)

Lemma heap_wf_lookup h l o :
  heap_wf h -> h !! l = Some o -> Forall (fun r => r < length h) (obj_refs o).
Proof. intros Hwf Ho. by apply (heap_wf_closed h Hwf l o (lookup_lt_Some _ _ _ Ho)). Qed.

Lemma valid_refs_sub rs rs' h :
  rs' ⊆ rs -> valid_refs rs h -> valid_refs rs' h.
Proof.
  intros Hsub [Hwf Hrs]. split; [done|]. rewrite Forall_forall in *.
  intros r Hr. apply Hrs, Hsub, Hr.
Qed.

#[local] Set Warnings "-clear-no-such-hyp".

Section Valid.

Variable rs0 : list loc.

Lemma valid_read l rs :
  rs0 ⊆ rs ->
  hoare (valid_refs rs) (read l)
    (fun o h => valid_refs (obj_refs o ++ rs) h) (valid_refs rs0).
Proof.
  intros Hsub h Hv. unfold read. destruct (h !! l) as [o|] eqn:E.
  - destruct Hv as [Hwf Hrs]. split; [done|]. apply Forall_app.
    split; [by eapply heap_wf_lookup | done].
  - by eapply valid_refs_sub.
Qed.

Lemma valid_alloc o rs :
  rs0 ⊆ rs -> obj_refs o ⊆ rs ->
  hoare (valid_refs rs) (alloc o)
    (fun l h => valid_refs (l :: rs) h) (valid_refs rs0).
Proof.
  intros Hsub Ho h [Hwf Hrs]. unfold alloc.
  assert (Hgrow : Forall (fun r => r < length (h ++ [o])) rs).
  { eapply Forall_impl; [exact Hrs|]. intros r Hr. cbn beta in Hr.
    rewrite length_app. lia. }
  split.
  - unfold heap_wf. apply Forall_app. split.
    + eapply Forall_impl; [exact Hwf|]. intros o' Ho'. cbn beta in Ho'.
      eapply Forall_impl; [exact Ho'|]. intros r Hr. cbn beta in Hr.
      rewrite length_app. lia.
    + constructor; [|constructor]. rewrite Forall_forall in *.
      intros r Hr. apply Hgrow, Ho, Hr.
  - constructor; [|done]. rewrite length_app. cbn. lia.
Qed.

Lemma valid_write l o rs rs' :
  rs0 ⊆ rs -> rs' ⊆ rs -> obj_refs o ⊆ rs ->
  hoare (valid_refs rs) (write l o)
    (fun _ h => valid_refs rs' h) (valid_refs rs0).
Proof.
  intros Hsub Hsub' Ho h [Hwf Hrs]. unfold write.
  apply (valid_refs_sub rs); [done|]. split.
  - unfold heap_wf. rewrite length_insert. apply Forall_insert; [done|].
    rewrite Forall_forall in *. intros r Hr. apply Hrs, Ho, Hr.
  - by rewrite length_insert.
Qed.

Lemma valid_ret {A} (a : A) rs (Q : A -> heap -> Prop) :
  (forall h, valid_refs rs h -> Q a h) ->
  hoare (valid_refs rs) (ret a) Q (valid_refs rs0).
Proof. apply hoare_ret. Qed.

Lemma valid_raise {A} e rs (Q : A -> heap -> Prop) :
  rs0 ⊆ rs -> hoare (valid_refs rs) (raise e) Q (valid_refs rs0).
Proof. intros Hsub. apply hoare_raise. intros h. by apply valid_refs_sub. Qed.

Lemma valid_read_conv x rs :
  rs0 ⊆ rs ->
  hoare (valid_refs rs) (read_conv x)
    (fun c h => valid_refs (obj_refs (OConv c) ++ rs) h) (valid_refs rs0).
Proof.
  intros Hsub. eapply hoare_bind; [by apply valid_read|].
  intros [c|ts|r m|xs];
    first [by apply valid_ret | apply valid_raise; set_solver].
Qed.

Lemma valid_read_msgs x rs :
  rs0 ⊆ rs ->
  hoare (valid_refs rs) (read_msgs x)
    (fun ts h => valid_refs (ts ++ rs) h) (valid_refs rs0).
Proof.
  intros Hsub. eapply hoare_bind; [by apply valid_read|].
  intros [c|ts|r m|xs];
    first [by apply valid_ret | apply valid_raise; set_solver].
Qed.

Lemma valid_read_turn x rs :
  rs0 ⊆ rs ->
  hoare (valid_refs rs) (read_turn x)
    (fun _ h => valid_refs rs h) (valid_refs rs0).
Proof.
  intros Hsub. eapply hoare_bind; [by apply valid_read|].
  intros [c|ts|r m|xs];
    first [by apply valid_ret | apply valid_raise; set_solver].
Qed.

Lemma valid_read_list x rs :
  rs0 ⊆ rs ->
  hoare (valid_refs rs) (read_list x)
    (fun _ h => valid_refs rs h) (valid_refs rs0).
Proof.
  intros Hsub. eapply hoare_bind; [by apply valid_read|].
  intros [c|ts|r m|xs];
    first [by apply valid_ret | apply valid_raise; set_solver].
Qed.

Lemma valid_alloc_turns ts rs :
  rs0 ⊆ rs ->
  hoare (valid_refs rs) (alloc_turns ts)
    (fun ls h => valid_refs (ls ++ rs) h) (valid_refs rs0).
Proof.
  revert rs. induction ts as [|t ts IH]; intros rs Hsub; cbn [alloc_turns].
  - by apply valid_ret.
  - eapply hoare_bind; [apply valid_alloc; [done | set_solver]|].
    intros l. eapply hoare_bind; [apply IH; set_solver|].
    intros ls. apply hoare_ret. intros h. apply valid_refs_sub. set_solver.
Qed.

Lemma valid_entry x i rs :
  rs0 ⊆ rs ->
  hoare (valid_refs rs) (entry x i)
    (fun e h => valid_refs (e.1.1.1 :: e.2 :: e.1.1.2 ++ rs) h)
    (valid_refs rs0).
Proof.
  intros Hsub. unfold entry.
  eapply hoare_bind; [by apply valid_read_conv|]. intros c.
  eapply hoare_bind; [apply valid_read_msgs; set_solver|]. intros ts.
  destruct (py_index (length ts) i) as [j|]; [|apply valid_raise; set_solver].
  destruct (ts !! j) as [t|] eqn:Et; [|apply valid_raise; set_solver].
  apply hoare_ret. intros h. apply valid_refs_sub. cbn [fst snd obj_refs].
  apply list_elem_of_lookup_2 in Et. set_solver.
Qed.

Lemma refs_set_scalar a c :
  obj_refs (OConv (set_scalar a c)) = obj_refs (OConv c).
Proof. by destruct a. Qed.

Lemma refs_set_aux f v c :
  obj_refs (OConv (set_aux f v c)) ⊆ fval_refs v ++ obj_refs (OConv c).
Proof. destruct f; cbn; set_solver. Qed.

Lemma refs_get_aux f c : fval_refs (get_aux f c) ⊆ obj_refs (OConv c).
Proof. destruct f; cbn; set_solver. Qed.

Lemma refs_set_messages m c :
  obj_refs (OConv (set_messages m c)) ⊆ m :: obj_refs (OConv c).
Proof. cbn. set_solver. Qed.

Lemma insert_subseteq_cons (ts : list loc) j l : <[j := l]> ts ⊆ l :: ts.
Proof.
  intros r (k & Hk)%list_elem_of_lookup.
  apply list_lookup_insert_Some in Hk as [(_ & <- & _)|[_ Hk]];
    [set_solver|]. apply list_elem_of_lookup_2 in Hk. set_solver.
Qed.

Lemma valid_append_message x role message :
  hoare (valid_refs rs0) (append_message x role message)
    (fun _ h => valid_refs rs0 h) (valid_refs rs0).
Proof.
  unfold append_message.
  eapply hoare_bind; [by apply valid_read_conv|]. intros c.
  eapply hoare_bind; [apply valid_read_msgs; set_solver|]. intros ts.
  eapply hoare_bind; [apply valid_alloc; set_solver|]. intros t.
  apply valid_write; cbn [obj_refs]; set_solver.
Qed.

Lemma valid_exec mu x :
  hoare (valid_refs rs0) (exec mu x)
    (fun _ h => valid_refs rs0 h) (valid_refs rs0).
Proof.
  destruct mu as [role message|a|f v|f i a|f a|ts|i t|i|i r|i msg];
    cbn [exec].
  - apply valid_append_message.
  - eapply hoare_bind; [by apply valid_read_conv|]. intros c.
    apply valid_write; rewrite ?refs_set_scalar; set_solver.
  - eapply hoare_bind with
      (Q := fun v' h => valid_refs (fval_refs v' ++ rs0) h).
    { destruct v as [a|xs|xs]; [by apply valid_ret..|].
      eapply hoare_bind; [apply valid_alloc; set_solver|].
      intros l. by apply valid_ret. }
    intros v'.
    eapply hoare_bind; [apply valid_read_conv; set_solver|]. intros c.
    pose proof (refs_set_aux f v' c).
    apply valid_write; set_solver.
  - eapply hoare_bind; [by apply valid_read_conv|]. intros c.
    pose proof (refs_get_aux f c) as Hl.
    destruct (get_aux f c) as [?|?|l]; [apply valid_raise; set_solver..|].
    eapply hoare_bind; [apply valid_read_list; set_solver|]. intros xs.
    destruct (py_index (length xs) i) as [j|];
      [apply valid_write; cbn [obj_refs]; set_solver
      | apply valid_raise; set_solver].
  - eapply hoare_bind; [by apply valid_read_conv|]. intros c.
    pose proof (refs_get_aux f c) as Hl.
    destruct (get_aux f c) as [?|?|l]; [apply valid_raise; set_solver..|].
    eapply hoare_bind; [apply valid_read_list; set_solver|]. intros xs.
    apply valid_write; cbn [obj_refs]; set_solver.
  - eapply hoare_bind; [by apply valid_alloc_turns|]. intros ls.
    eapply hoare_bind;
      [apply valid_alloc; cbn [obj_refs]; set_solver|]. intros m.
    eapply hoare_bind; [apply valid_read_conv; set_solver|]. intros c.
    pose proof (refs_set_messages m c).
    apply valid_write; set_solver.
  - eapply hoare_bind; [apply valid_alloc; set_solver|]. intros l.
    eapply hoare_bind; [apply valid_entry; set_solver|].
    intros [[[m ts] j] t']. cbn [fst snd].
    pose proof (insert_subseteq_cons ts j l).
    apply valid_write; cbn [obj_refs]; set_solver.
  - eapply hoare_bind; [by apply valid_entry|].
    intros [[[m ts] j] t']. cbn [fst snd].
    pose proof (sublist_subseteq _ _ (sublist_delete ts j)).
    apply valid_write; cbn [obj_refs]; set_solver.
  - eapply hoare_bind; [by apply valid_entry|].
    intros [[[m ts] j] t']. cbn [fst snd].
    eapply hoare_bind; [apply valid_read_turn; set_solver|]. intros tu.
    apply valid_write; cbn [obj_refs]; set_solver.
  - eapply hoare_bind; [by apply valid_entry|].
    intros [[[m ts] j] t']. cbn [fst snd].
    eapply hoare_bind; [apply valid_read_turn; set_solver|]. intros tu.
    apply valid_write; cbn [obj_refs]; set_solver.
Qed.

End Valid.

(** ** [default_conversation] *)

Lemma separated_refl F h h' : separated F h h' -> separated F h' h'.
Proof. intros (Hb & Hout & _). by repeat split. Qed.

Lemma closed_agree F h h' : closed F h -> agree F h h' -> closed F h'.
Proof.
  intros Hcl Hag l o Hl Ho. rewrite (Hag l Hl) in Ho. by eapply Hcl.
Qed.

Lemma loads_agree F h h' a v :
  closed F h -> agree F h h' -> F a -> loads h a v -> loads h' a v.
Proof.
  intros Hcl Hag Ha Hv%load_iff. apply load_iff.
  destruct (same_load F h h' Hag a Hcl Ha) as (E & _). by rewrite E.
Qed.

Lemma shared_inv_frame F cl ts h h' :
  separated F h h' -> closed F h -> heap_wf h' ->
  Forall (fun b => ~ F b /\ b < length h') cl ->
  F conv_llava_plain -> F conv_vicuna_v1 ->
  h !! 0 = Some (OMsgs []) ->
  h !! conv_llava_plain = Some (OConv (conv_llava_plain_obj 0)) ->
  h !! conv_vicuna_v1 = Some (OConv (conv_vicuna_v1_obj 2)) ->
  loads h conv_vicuna_v1 (with_messages v1_value ts) ->
  shared_inv cl ts h'.
Proof.
  intros Hsep Hcl Hwf Hcls Fp Fv H0 H1 H3 Lv.
  pose proof Hsep as (_ & _ & Hag).
  assert (F0 : F 0).
  { pose proof (Hcl _ _ Fp H1) as Hrefs. cbn in Hrefs.
    by apply Forall_cons in Hrefs as [? _]. }
  exists F. split; [by eapply separated_refl|].
  split; [by eapply closed_agree|]. split; [done|]. split; [done|].
  rewrite !Hag by done. split; [done|]. split; [done|]. split; [done|].
  split; [by eapply loads_agree | done].
Qed.

Lemma shared_reachable_inv cl ts h :
  shared_reachable cl ts h -> shared_inv cl ts h.
Proof.
  induction 1 as [|name cl ts h Hr IH|x mu cl ts h Hr IH Hx
                  |role message cl ts h Hr IH].
  - apply (shared_inv_frame (fun l => l < length module_heap) [] []
             module_heap module_heap); try done.
    + split; [done|]. split; [|done].
      intros l o Hl Ho%lookup_lt_Some. lia.
    + apply heap_wf_closed, module_heap_wf.
    + apply module_heap_wf.
    + unfold conv_llava_plain. cbn. lia.
    + unfold conv_vicuna_v1. cbn. lia.
    + apply load_iff. vm_compute. reflexivity.
  - destruct IH as (F & Hsep & Hcl & Fp & Fv & H0 & H1 & H3 & Lv & Hwf & Hcls).
    unfold get_conv_template.
    destruct (dict_get conv_templates name) as [p|] eqn:E.
    2:{ cbn [raise fst snd]. exists F. by split_and!. }
    assert (Hp : exists v, loads h p v).
    { destruct (registered_cases name p E) as [(_ & -> & _)|(_ & -> & _)].
      - exists plain_value. exists (conv_llava_plain_obj 0), [].
        split; [done|]. split; [done|]. repeat split; constructor.
      - by eexists. }
    assert (Fpp : F p)
      by (by destruct (registered_cases name p E) as [(_ & -> & _)|(_ & -> & _)]).
    destruct Hp as (v & Hv).
    destruct (copy_spec h p v Hv) as (b & h1 & memo & Ecopy & Hinv & Hb & _).
    rewrite Ecopy. cbn [fst snd].
    pose proof Hsep as (Hbound & _).
    apply (shared_inv_frame F _ _ h h1); try done.
    + by eapply copy_inv_separated.
    + by eapply copy_inv_wf.
    + constructor.
      * split; [|lia]. intros HF%Hbound. lia.
      * eapply Forall_impl; [exact Hcls|]. intros c [Hc Hlt].
        split; [done | lia].
  - destruct IH as (F & Hsep & Hcl & Fp & Fv & H0 & H1 & H3 & Lv & Hwf & Hcls).
    assert (Hnx : ~ F x).
    { rewrite Forall_forall in Hcls. by destruct (Hcls x Hx). }
    assert (Hval : valid_refs cl h).
    { split; [done|]. eapply Forall_impl; [exact Hcls|]. by intros c [_ ?]. }
    pose proof (frame_exec F h mu x Hnx h Hsep) as Hf.
    pose proof (valid_exec cl mu x h Hval) as He.
    assert (Hsep' : separated F h (snd (exec mu x h)))
      by (by destruct (exec mu x h) as [[[]|e] h']).
    assert (Hval' : valid_refs cl (snd (exec mu x h)))
      by (by destruct (exec mu x h) as [[[]|e] h']).
    destruct Hval' as [Hwf' Hlt'].
    apply (shared_inv_frame F _ _ h _); try done.
    rewrite Forall_forall in *. intros c Hc. split; [|by apply Hlt'].
    by destruct (Hcls c Hc).
  - destruct IH as (F & Hsep & Hcl & Fp & Fv & H0 & H1 & H3 & Lv & Hwf & Hcls).
    unfold default_conversation.
    destruct (append_message_loads h conv_vicuna_v1 _ role message Lv)
      as (c & us & Hc & Hm & Eapp & Lv').
    rewrite H3 in Hc. injection Hc as <-.
    cbn [conv_vicuna_v1_obj o_messages] in *.
    assert (Hval : valid_refs cl h).
    { split; [done|]. eapply Forall_impl; [exact Hcls|]. by intros c [_ ?]. }
    pose proof (valid_append_message cl conv_vicuna_v1 role message h Hval)
      as He.
    rewrite Eapp in *. cbn [snd] in *. destruct He as [Hwf' Hlt'].
    set (h' := <[2 := OMsgs (us ++ [length h])]>
                 (h ++ [OTurn role message])) in *.
    pose proof Hsep as (Hbound & Hout & _).
    assert (F2 : F 2).
    { pose proof (Hcl _ _ Fv H3) as Hrefs. cbn in Hrefs.
      by apply Forall_cons in Hrefs as [? _]. }
    assert (Hus : Forall F us) by apply (Hcl _ _ F2 Hm).
    assert (Hold : forall l, l < length h -> l <> 2 -> h' !! l = h !! l).
    { intros l Hl Hne. unfold h'. rewrite list_lookup_insert_ne by done.
      by rewrite lookup_app_l. }
    assert (Hlen : length h' = S (length h)).
    { unfold h'. rewrite length_insert, length_app. cbn. lia. }
    exists (fun l => F l \/ l = length h).
    split; [split; [|split; [|done]]|].
    { intros l [Hl%Hbound| ->]; lia. }
    { intros l o Hl Ho.
      assert (Hl2 : l <> 2) by (intros ->; tauto).
      assert (Hlt : l < length h).
      { apply lookup_lt_Some in Ho. rewrite Hlen in Ho.
        destruct (decide (l = length h)); [tauto | lia]. }
      rewrite Hold in Ho by done.
      pose proof (Hout l o ltac:(tauto) Ho) as Hclean.
      pose proof (heap_wf_lookup h l o Hwf Ho) as Hrefs.
      unfold clean in *. rewrite Forall_forall in *.
      intros r Hin [HF| ->]; [by apply (Hclean r) |].
      specialize (Hrefs _ Hin). cbn beta in Hrefs. lia. }
    split.
    { intros l o [Hl| ->] Ho.
      - destruct (decide (l = 2)) as [->|Hne].
        + unfold h' in Ho. rewrite list_lookup_insert_eq in Ho
            by (rewrite length_app; apply lookup_lt_Some in Hm; lia).
          injection Ho as <-. cbn [obj_refs]. apply Forall_app. split.
          * eapply Forall_impl; [exact Hus|]. tauto.
          * constructor; [by right | constructor].
        + rewrite Hold in Ho by (done || by apply Hbound).
          eapply Forall_impl; [by eapply Hcl|]. tauto.
      - unfold h' in Ho.
        rewrite (append_new_turn h 2 us role message Hm) in Ho.
        injection Ho as <-. constructor. }
    split; [by left|]. split; [by left|].
    assert (Hlook : forall l o, h !! l = Some o -> l <> 2 -> h' !! l = Some o).
    { intros l o Ho Hne. rewrite Hold; [done | by eapply lookup_lt_Some | done]. }
    split; [by apply Hlook|]. split; [by apply Hlook|].
    split; [by apply Hlook|]. split; [exact Lv'|]. split; [done|].
    rewrite Forall_forall in *. intros b Hb. destruct (Hcls b Hb) as [HnF Hlt].
    split; [|by apply Hlt']. intros [HF| ->]; [done | lia].
Qed.

(** X7. [default_conversation] is the "v1" prototype itself, not a copy of
    it.  In every store reached by lookups, by mutations through the
    references the lookups returned and by appends through
    [default_conversation], in any order, [default_conversation] is the
    registered "v1" template with the turns appended through it so far, a
    lookup of "v1" returns a new conversation of that value, and a lookup of
    "plain" returns a new conversation with the template as registered. *)
Theorem default_conversation_is_prototype cl ts h :
  shared_reachable cl ts h ->
  dict_get conv_templates (str "v1") = Some default_conversation
  /\ fst (load default_conversation h) = Ok (with_messages v1_value ts)
  /\ (exists b h1,
        get_conv_template (str "v1") h = (Ok b, h1)
        /\ length h <= b
        /\ fst (load b h1) = Ok (with_messages v1_value ts))
  /\ (exists b h1,
        get_conv_template (str "plain") h = (Ok b, h1)
        /\ length h <= b /\ fst (load b h1) = Ok plain_value).
Proof.
  intros (F & _ & _ & _ & _ & H0 & H1 & _ & Lv & _)%shared_reachable_inv.
  split; [reflexivity|]. split; [by apply load_iff|]. split.
  - destruct (copy_spec h conv_vicuna_v1 _ Lv)
      as (b & h1 & memo & Ecopy & _ & Hb & Hbv).
    exists b, h1. split; [exact Ecopy|]. split; [lia | by apply load_iff].
  - assert (Lp : loads h conv_llava_plain plain_value).
    { exists (conv_llava_plain_obj 0), [].
      split; [done|]. split; [done|]. repeat split; constructor. }
    destruct (copy_spec h conv_llava_plain _ Lp)
      as (b & h1 & memo & Ecopy & _ & Hb & Hbv).
    exists b, h1. split; [exact Ecopy|]. split; [lia | by apply load_iff].
Qed.

Lemma default_conversation_is_prototype_witness :
  exists b h1,
    get_conv_template (str "v1")
      (snd (append_message default_conversation (str "USER")
              (Some (str "Hi"))
              (snd (get_conv_template (str "plain") module_heap))))
    = (Ok b, h1)
    /\ fst (load b h1)
       = Ok (with_messages v1_value [(str "USER", Some (str "Hi"))]).
Proof.
  destruct (default_conversation_is_prototype _ _ _
              (sr_append (str "USER") (Some (str "Hi")) _ _ _
                 (sr_get (str "plain") _ _ _ sr_init)))
    as (_ & _ & (b & h1 & Eg & _ & Hb) & _).
  exists b, h1. split; [exact Eg | exact Hb].
Defined.



(** ** Styles without a branch of their own *)

Lemma default_loop_fallback st st' sepa n ret i msgs :
  fallback st -> fallback st' ->
  default_loop st sepa n ret i msgs = default_loop st' sepa n ret i msgs.
Proof.
  intros (_ & _ & Hp & Hc) (_ & _ & Hp' & Hc'). revert ret i.
  induction msgs as [|[r [[|ch x]|]] msgs IH]; intros ret i;
    cbn [default_loop]; [done|..];
    rewrite !decide_False by done; apply IH.
Qed.

(** X9. The styles SINGLE, MPT, LLAMA_2, CHATGLM, DOLLY, RWKV, PHOENIX,
    ROBIN and FALCON_CHAT are assembled alike: changing one for another
    never changes the prompt; and VICUNA is assembled, or refused, exactly
    as TWO is. *)
Theorem fallback_styles_agree c st st' :
  fallback st -> fallback st' ->
  get_prompt (with_style c st) = get_prompt (with_style c st')
  /\ get_prompt (with_style c VICUNA) = get_prompt (with_style c TWO)
  /\ (forall s, fallback s <->
        In s [SINGLE; MPT; LLAMA_2; CHATGLM; DOLLY; RWKV; PHOENIX; ROBIN;
              FALCON_CHAT]).
Proof.
  intros Hf Hf'. split; [|split].
  - pose proof Hf as (H1 & H2 & H3 & H4).
    pose proof Hf' as (H1' & H2' & H3' & H4').
    unfold get_prompt, with_style.
    cbn [sep_style sep2 sep system messages].
    destruct (truthy (system c)); repeat case_decide; try tauto;
      by rewrite (default_loop_fallback st st').
  - unfold get_prompt, with_style.
    cbn [sep_style sep2 sep system messages].
    by rewrite !decide_True by auto.
  - intros s. unfold fallback. cbn [In]. split.
    + intros (H1 & H2 & H3 & H4). destruct s; tauto.
    + intros Hin. repeat split; intros ->;
        repeat (destruct Hin as [Hin|Hin]; [discriminate|]); done.
Qed.

Lemma fallback_styles_agree_witness :
  get_prompt (with_style single_empty_content SINGLE)
  = get_prompt (with_style single_empty_content FALCON_CHAT).
Proof.
  apply (fallback_styles_agree single_empty_content SINGLE FALCON_CHAT);
    repeat split; discriminate.
Defined.
